(** * zoom-recording-downloader: a shallow embedding and its properties

    The program under study is [zoom-recording-downloader.py]: it obtains an
    OAuth token, lists the users of a Zoom account, lists the cloud recordings
    of one owner in 30-day windows, downloads every file of every recording,
    deletes the recording from the cloud when all files arrived, and keeps a
    log of the recordings it is done with.

    Conventions of the embedding.
    - Python [str] values are [string]s; a character is a code point below 256.
    - [datetime] and [timedelta] values are integers (a count of microseconds),
      so that [+], [<] and [min] are those of [Z]; the bounds of the calendar
      (years 1 to 9999) are not modelled.
    - Printing to the console is not modelled.
    - A function that may raise returns an [outcome]; the functions of the
      main loop thread a [state] and keep it when an exception passes through.
    - Every HTTP request is answered by a [world], which may answer
      differently each time: its answers depend on the list of requests made
      so far.  The [trace] of the state records the requests.
    - [format_filename], which renders the configured templates, and the two
      sanitizers of [pathvalidate] are functions of the [world]: no property
      below depends on the names they produce. *)

From Stdlib Require Import ZArith Lia Bool List String Ascii.
From stdpp Require Import base option list gmap strings.

Local Open Scope Z_scope.

(** ** The window generator [per_delta] *)

(** [per_delta start end delta]: the generator is unfolded into the list of the
    pairs it yields.  The loop variable [curr] starts at [start]; [fuel]
    bounds the number of iterations, and [None] says that the loop was still
    running when the fuel ran out. *)
Fixpoint per_delta (fuel : nat) (curr end_ delta : Z) : option (list (Z * Z)) :=
  if curr <? end_ then
    match fuel with
    | O => None
    | S fuel' =>
        cons (curr, Z.min (curr + delta) end_)
          <$> per_delta fuel' (curr + delta) end_ delta
    end
  else Some [].




(** ** Text: [str.strip] and reading a text file line by line *)

Definition LF : ascii := "010"%char.
Definition CR : ascii := "013"%char.

(** [str.isspace] on one character: the code points below 256 that Python
    counts as white space are 9 to 13, 28 to 32, 133 and 160. *)
Definition isspace (c : ascii) : bool :=
  let n := N_of_ascii c in
  ((9 <=? n) && (n <=? 13) || (28 <=? n) && (n <=? 32)
   || (n =? 133) || (n =? 160))%N.

Fixpoint lstrip (s : string) : string :=
  match s with
  | EmptyString => EmptyString
  | String c s' => if isspace c then lstrip s' else s
  end.

Fixpoint rstrip (s : string) : string :=
  match s with
  | EmptyString => EmptyString
  | String c s' =>
      match rstrip s' with
      | EmptyString => if isspace c then EmptyString else String c EmptyString
      | r => String c r
      end
  end.

(** [s.strip()] *)
Definition strip (s : string) : string := rstrip (lstrip s).

(** What [open(path, 'r')] delivers for the stored text: in the default
    universal-newlines mode a CR LF pair and a lone CR are both read as LF.
    [pending_cr] says that the character before was a CR, already read as
    LF, so that an LF coming now belongs to that pair. *)
Fixpoint universal_newlines (pending_cr : bool) (s : string) : string :=
  match s with
  | EmptyString => EmptyString
  | String c s' =>
      if Ascii.eqb c CR then String LF (universal_newlines true s')
      else if Ascii.eqb c LF then
        if pending_cr then universal_newlines false s'
        else String LF (universal_newlines false s')
      else String c (universal_newlines false s')
  end.

(** [for line in fd]: the lines of the text, each with its LF; the last one
    has none when the text does not end with LF. *)
Fixpoint file_lines (s : string) : list string :=
  match s with
  | EmptyString => []
  | String c s' =>
      if Ascii.eqb c LF then String c EmptyString :: file_lines s'
      else match file_lines s' with
           | [] => [String c EmptyString]
           | l :: ls => String c l :: ls
           end
  end.

(** The identifiers that a line of the log can hold as they are: no white
    space at either end and no line break inside. *)
Fixpoint no_line_break (s : string) : bool :=
  match s with
  | EmptyString => true
  | String c s' =>
      negb (Ascii.eqb c LF) && negb (Ascii.eqb c CR) && no_line_break s'
  end.

Definition line_safe (s : string) : Prop :=
  lstrip s = s /\ rstrip s = s /\ no_line_break s = true.

(** A text made of whole lines: empty, or ending with LF. *)
Fixpoint whole_lines (s : string) : bool :=
  match s with
  | EmptyString => true
  | String c s' =>
      match s' with
      | EmptyString => Ascii.eqb c LF
      | String _ _ => whole_lines s'
      end
  end.

(** ** Exceptions and the state of a run *)

Inductive exn : Type :=
| NameError (name : string)
| KeyError (key : string)
| TypeError
| ValueError
| ConnectionError
| OSError
| PlainException            (* [raise Exception] *)
| SystemExit (code : Z).

(** [except Exception] catches everything but [SystemExit]. *)
Definition is_Exception (e : exn) : bool :=
  match e with SystemExit _ => false | _ => true end.

Inductive outcome (A : Type) : Type :=
| Return (a : A)
| Raise (e : exn).
Arguments Return {A} a.
Arguments Raise {A} e.

(** The requests that leave the process, in the order they are made. *)
Inductive event : Type :=
| TokenRequest
| UsersRequest
| UsersPageRequest (page : nat)
| RecordingsRequest (user_id : string) (from to : Z)
| DownloadRequest (url : string)
| DeleteRequest (meeting_id : string).

Record state : Type := mkState {
  ACCESS_TOKEN : option string;            (* module global, unbound at start *)
  AUTHORIZATION_HEADER : option string;    (* module global, unbound at start *)
  COMPLETED_MEETING_IDS : gset string;
  log_file : option string;   (* text of COMPLETED_MEETING_IDS_LOG, if it exists *)
  disk : gmap string (list Byte.byte);     (* the files under the download directory *)
  trace : list event
}.

(** The state of a new interpreter, with the log and the disk as found. *)
Definition initial_state (log : option string) (files : gmap string (list Byte.byte)) : state :=
  mkState None None ∅ log files [].

Definition M (A : Type) : Type := state -> outcome A * state.

Definition ret {A} (a : A) : M A := fun st => (Return a, st).
Definition raise {A} (e : exn) : M A := fun st => (Raise e, st).
Definition bind {A B} (c : M A) (k : A -> M B) : M B :=
  fun st =>
    match c st with
    | (Return a, st') => k a st'
    | (Raise e, st') => (Raise e, st')
    end.

Notation "x <- c ;; k" := (bind c (fun x => k))
  (at level 90, c at next level, right associativity).
Notation "c ;;; k" := (bind c (fun _ => k))
  (at level 90, right associativity).

(** [try: body except Exception: handler] *)
Definition try_except {A} (body : M A) (handler : exn -> M A) : M A :=
  fun st =>
    match body st with
    | (Raise e, st') => if is_Exception e then handler e st' else (Raise e, st')
    | r => r
    end.

Definition get_state : M state := fun st => (Return st, st).

Definition set_trace (t : list event) (st : state) : state :=
  mkState (ACCESS_TOKEN st) (AUTHORIZATION_HEADER st)
    (COMPLETED_MEETING_IDS st) (log_file st) (disk st) t.

Definition set_disk (d : gmap string (list Byte.byte)) (st : state) : state :=
  mkState (ACCESS_TOKEN st) (AUTHORIZATION_HEADER st)
    (COMPLETED_MEETING_IDS st) (log_file st) d (trace st).

Definition emit (ev : event) : M unit :=
  fun st => (Return tt, set_trace (trace st ++ [ev]) st).

(** The outcome of a request, as the world decides it. *)
Definition answer {A} (o : outcome A) : M A := fun st => (o, st).

(** Reading a module global that is bound only once it was assigned. *)
Definition read_global (name : string) (field : state -> option string) : M string :=
  fun st =>
    match field st with
    | Some v => (Return v, st)
    | None => (Raise (NameError name), st)
    end.

Definition map_result {A B} (f : A -> B) (c : M A) : M B :=
  a <- c ;; ret (f a).

Notation "f <$$> c" := (map_result f c) (at level 61, left associativity).

(** [for x in xs: body x] *)
Fixpoint for_each {A} (xs : list A) (body : A -> M unit) : M unit :=
  match xs with
  | [] => ret tt
  | x :: xs' => body x ;;; for_each xs' body
  end.

(** ** Data exchanged with the provider *)

(** One entry of a user page: [(email, id, first_name, last_name)]. *)
Record user : Type := mkUser {
  email : string;
  user_id : string;
  first_name : string;
  last_name : string
}.

(** One entry of [recording["recording_files"]]. *)
Record recording_file : Type := mkFile {
  file_type : string;
  file_extension : string;
  file_id : string;                 (* the entry's ["id"] *)
  file_recording_type : string;     (* the entry's ["recording_type"] *)
  file_download_url : string        (* the entry's ["download_url"] *)
}.

(** One entry of the ["meetings"] of a listing. *)
Record recording : Type := mkRecording {
  uuid : string;
  rec_id : string;                  (* the meeting's ["id"] *)
  topic : string;
  start_time : string;
  recording_files : list recording_file   (* empty when the key is missing *)
}.

(** The tuple that [get_downloads] builds for one file:
    [(file_type, file_extension, download_url, recording_type, recording_id)]. *)
Record download : Type := mkDownload {
  dl_file_type : string;
  dl_file_extension : string;
  dl_download_url : string;
  dl_recording_type : string;
  dl_recording_id : string
}.

(** The [content-length] header of a download response. *)
Inductive header : Type :=
| Absent
| Declared (value : Z)     (* the header is the decimal numeral of [value] *)
| Malformed.               (* the header is not a numeral: [int] raises *)

(** How the body of a download response ends: [Broken e] says that, once the
    chunks listed before it were written, [iter_content] (or the write of the
    next chunk) raised [e]. *)
Inductive stream_end : Type :=
| Complete
| Broken (e : exn).

Record response : Type := mkResponse {
  content_length : header;
  chunks : list (list Byte.byte);
  ending : stream_end
}.

Inductive http_reply : Type :=
| Unreachable                (* [requests.get] itself raises *)
| Replied (r : response).

(** The answer of the token endpoint. *)
Inductive token_reply : Type :=
| TokenUnreachable                        (* [requests.request] raises *)
| TokenNotJson                            (* [json.loads] raises *)
| TokenNotObject                          (* JSON, but not an object *)
| TokenObject (access_token : option string).   (* an object, with the key or not *)

(** Everything the run does not decide itself.  The answers to a listing, a
    download and a deletion may depend on all requests made before; a page of
    users, a listing and a deletion may also fail, with the exception that the
    request or the reading of its answer raises. *)
Record world : Type := mkWorld {
  RECORDING_START_DATE : Z;
  RECORDING_END_DATE : Z;
  oauth_token : token_reply;
  users_first : option nat;       (* [None]: not [ok]; [Some n]: ["page_count"] is [n] *)
  users_page : nat -> outcome (list user);
  meetings : list event -> string -> Z -> Z -> outcome (list recording);
  download_reply : list event -> string -> http_reply;
  delete_status : list event -> string -> outcome Z;     (* [response.status_code] *)
  format_filename : recording -> download -> string * string;
  sanitize_filepath : string -> string;
  sanitize_filename : string -> string
}.

(** ** The functions of the program *)

Definition DOWNLOAD_DIRECTORY : string := "drive/MyDrive/Zoom Recordings/2025".
Definition sep : string := "/".
Definition thirty_days : Z := 30 * 86400 * 1000000.

(** The names bound at module level when [main] runs ([ACCESS_TOKEN] and
    [AUTHORIZATION_HEADER] are bound later, by [load_access_token]). *)
Definition module_names : list string :=
  [ "base64"; "datetime"; "json"; "os"; "regex"; "signal"; "system"; "drive";
    "parser"; "path_validate"; "requests"; "progress_bar"; "ZoneInfo";
    "Color"; "CONF_PATH"; "json_file"; "CONF"; "config";
    "ACCOUNT_ID"; "CLIENT_ID"; "CLIENT_SECRET"; "APP_VERSION";
    "API_ENDPOINT_USER_LIST"; "RECORDING_START_YEAR"; "RECORDING_START_MONTH";
    "RECORDING_START_DAY"; "RECORDING_START_DATE"; "RECORDING_END_DATE";
    "DOWNLOAD_DIRECTORY"; "COMPLETED_MEETING_IDS_LOG"; "COMPLETED_MEETING_IDS";
    "MEETING_TIMEZONE"; "MEETING_STRFTIME"; "MEETING_FILENAME"; "MEETING_FOLDER";
    "load_access_token"; "get_users"; "format_filename"; "get_downloads";
    "get_recordings"; "delete_recording"; "per_delta"; "list_recordings";
    "download_recording"; "load_completed_meeting_ids";
    "handle_graceful_shutdown"; "main" ]%string.

(** The parameters and local variables of [download_recording]. *)
Definition download_recording_locals : list string :=
  [ "download_url"; "email"; "filename"; "folder_name"; "dl_dir";
    "sanitized_download_dir"; "sanitized_filename"; "full_filename";
    "response"; "total_size"; "block_size"; "prog_bar"; "fd"; "chunk";
    "disk_size"; "e" ]%string.

Definition name_in (names : list string) (x : string) : bool :=
  existsb (String.eqb x) names.

(** Evaluating the name [x] inside a function with the given locals. *)
Definition read_name (locals : list string) (x : string) : M unit :=
  if name_in locals x || name_in module_names x then ret tt
  else raise (NameError x).

Definition load_access_token (w : world) : M unit :=
  emit TokenRequest ;;;
  match oauth_token w with
  | TokenUnreachable => raise ConnectionError
  | TokenNotJson => raise ValueError
  | TokenNotObject => raise TypeError
  | TokenObject (Some token) =>
      fun st =>
        (Return tt,
         mkState (Some token) (Some ("Bearer " +:+ token))
           (COMPLETED_MEETING_IDS st) (log_file st) (disk st) (trace st))
  | TokenObject None => ret tt      (* [except KeyError]: a message only *)
  end.

(** The set built from the text of the log. *)
Definition hydrate (text : string) : gset string :=
  list_to_set (strip <$> file_lines (universal_newlines false text)).

Definition load_completed_meeting_ids : M unit :=
  fun st =>
    match log_file st with
    | Some text =>
        (Return tt,
         mkState (ACCESS_TOKEN st) (AUTHORIZATION_HEADER st)
           (COMPLETED_MEETING_IDS st ∪ hydrate text)
           (log_file st) (disk st) (trace st))
    | None => (Return tt, st)       (* [except FileNotFoundError] *)
    end.

(** The body of [with open(COMPLETED_MEETING_IDS_LOG, 'a') as log]: the
    identifier joins the set and the line [meeting_id + LF] is appended. *)
Definition mark_complete (meeting_id : string) : M unit :=
  fun st =>
    (Return tt,
     mkState (ACCESS_TOKEN st) (AUTHORIZATION_HEADER st)
       ({[ meeting_id ]} ∪ COMPLETED_MEETING_IDS st)
       (Some (default EmptyString (log_file st) +:+ meeting_id +:+ String LF EmptyString))
       (disk st) (trace st)).

Fixpoint get_users_pages (w : world) (pages : list nat) : M (list user) :=
  match pages with
  | [] => ret []
  | page :: pages' =>
      _ <- read_global "AUTHORIZATION_HEADER" AUTHORIZATION_HEADER ;;
      emit (UsersPageRequest page) ;;;
      users <- answer (users_page w page) ;;
      rest <- get_users_pages w pages' ;;
      ret (users ++ rest)
  end.

Definition get_users (w : world) : M (list user) :=
  _ <- read_global "AUTHORIZATION_HEADER" AUTHORIZATION_HEADER ;;
  emit UsersRequest ;;;
  match users_first w with
  | None => raise (SystemExit 1)
  | Some page_count => get_users_pages w (seq 1 page_count)
  end.

Definition get_download (rf : recording_file) : M download :=
  let recording_type :=
    if String.eqb (file_type rf) "" then "incomplete"%string
    else if negb (String.eqb (file_type rf) "TIMELINE") then file_recording_type rf
    else file_type rf in
  token <- read_global "ACCESS_TOKEN" ACCESS_TOKEN ;;
  ret (mkDownload (file_type rf) (file_extension rf)
         (file_download_url rf +:+ "?access_token=" +:+ token)
         recording_type (file_id rf)).

Fixpoint get_downloads_loop (files : list recording_file) : M (list download) :=
  match files with
  | [] => ret []
  | rf :: files' =>
      d <- get_download rf ;;
      ds <- get_downloads_loop files' ;;
      ret (d :: ds)
  end.

Definition get_downloads (r : recording) : M (list download) :=
  match recording_files r with
  | [] => raise PlainException
  | files => get_downloads_loop files
  end.

Definition delete_recording (w : world) (meeting_id : string) : M bool :=
  _ <- read_global "AUTHORIZATION_HEADER" AUTHORIZATION_HEADER ;;
  st <- get_state ;;
  emit (DeleteRequest meeting_id) ;;;
  status_code <- answer (delete_status w (trace st) meeting_id) ;;
  ret (status_code =? 204).

(** The windows that [list_recordings] walks through: [per_delta] with the
    30-day step, run with as much fuel as the range is long. *)
Definition list_windows (w : world) : list (Z * Z) :=
  default []
    (per_delta (Z.to_nat (RECORDING_END_DATE w - RECORDING_START_DATE w))
       (RECORDING_START_DATE w) (RECORDING_END_DATE w) thirty_days).

Fixpoint list_recordings_loop (w : world) (email : string)
    (windows : list (Z * Z)) : M (list recording) :=
  match windows with
  | [] => ret []
  | (start, end_) :: windows' =>
      _ <- read_global "AUTHORIZATION_HEADER" AUTHORIZATION_HEADER ;;
      st <- get_state ;;
      emit (RecordingsRequest email start end_) ;;;
      found <- answer (meetings w (trace st) email start end_) ;;
      rest <- list_recordings_loop w email windows' ;;
      ret (found ++ rest)
  end.

Definition list_recordings (w : world) (email : string) : M (list recording) :=
  list_recordings_loop w email (list_windows w).

Definition requests_get (w : world) (url : string) : M response :=
  st <- get_state ;;
  emit (DownloadRequest url) ;;;
  match download_reply w (trace st) url with
  | Unreachable => raise ConnectionError
  | Replied r => ret r
  end.

(** [int(response.headers.get("content-length", 0))] *)
Definition int_content_length (h : header) : M Z :=
  match h with
  | Absent => ret 0
  | Declared n => ret n
  | Malformed => raise ValueError
  end.

(** [with open(full_filename, "wb") as fd]: the file is created or emptied and
    receives every chunk that arrives; an error of the stream leaves the
    [with] block once the file is closed. *)
Definition write_chunks (full_filename : string) (r : response) : M unit :=
  fun st =>
    let st' := set_disk (<[ full_filename := concat (chunks r) ]> (disk st)) st in
    match ending r with
    | Complete => (Return tt, st')
    | Broken e => (Raise e, st')
    end.

(** [os.path.getsize] *)
Definition getsize (path : string) : M Z :=
  fun st =>
    match disk st !! path with
    | Some bytes => (Return (Z.of_nat (length bytes)), st)
    | None => (Raise OSError, st)
    end.

(** The path that [download_recording] writes to. *)
Definition full_filename (w : world) (filename folder_name : string) : string :=
  let dl_dir := DOWNLOAD_DIRECTORY +:+ sep +:+ folder_name in
  let sanitized_download_dir := sanitize_filepath w dl_dir in
  let sanitized_filename := sanitize_filename w filename in
  sanitized_download_dir +:+ sep +:+ sanitized_filename.

Definition download_recording (w : world)
    (download_url email filename folder_name : string) : M bool :=
  let full_filename := full_filename w filename folder_name in
  response <- requests_get w download_url ;;
  total_size <- int_content_length (content_length response) ;;
  try_except
    (write_chunks full_filename response ;;;
     disk_size <- getsize full_filename ;;
     ret (disk_size =? total_size))
    (fun e =>
       (* the message of the handler mentions [Color] and [recording_id] *)
       read_name download_recording_locals "Color" ;;;
       read_name download_recording_locals "recording_id" ;;;
       ret false).

(** The first loop over the files of a recording; the accumulator is
    [all_files_downloaded]. *)
Fixpoint download_all (w : world) (r : recording) (email : string)
    (downloads : list download) (all_files_downloaded : bool) : M bool :=
  match downloads with
  | [] => ret all_files_downloaded
  | d :: downloads' =>
      if negb (String.eqb (dl_recording_type d) "incomplete") then
        let '(filename, folder_name) := format_filename w r d in
        ok <- download_recording w (dl_download_url d) email filename folder_name ;;
        download_all w r email downloads'
          (if negb ok then false else all_files_downloaded)
      else download_all w r email downloads' false
  end.

(** The second loop, entered when the first one left
    [all_files_downloaded] false; the accumulator is [success]. *)
Fixpoint download_again (w : world) (r : recording) (email : string)
    (downloads : list download) (success : bool) : M bool :=
  match downloads with
  | [] => ret success
  | d :: downloads' =>
      if negb (String.eqb (dl_recording_type d) "incomplete") then
        let '(filename, folder_name) := format_filename w r d in
        ok <- download_recording w (dl_download_url d) email filename folder_name ;;
        download_again w r email downloads' (success || ok)
      else download_again w r email downloads' false
  end.

(** The body of [for index, recording in enumerate(recordings)]; [None] from
    the extraction stands for the [continue] of its [except] branch. *)
Definition process_recording (w : world) (email : string) (r : recording) : M unit :=
  let meeting_id := uuid r in
  st <- get_state ;;
  if bool_decide (meeting_id ∈ COMPLETED_MEETING_IDS st) then ret tt
  else
    extracted <- try_except (Some <$$> get_downloads r) (fun _ => ret None) ;;
    match extracted with
    | None => ret tt
    | Some downloads =>
        all_files_downloaded <- download_all w r email downloads true ;;
        if all_files_downloaded then
          deleted <- delete_recording w meeting_id ;;
          if deleted then mark_complete meeting_id else ret tt
        else
          extracted' <- try_except (Some <$$> get_downloads r) (fun _ => ret None) ;;
          match extracted' with
          | None => ret tt
          | Some downloads' =>
              success <- download_again w r email downloads' false ;;
              if success then mark_complete meeting_id else ret tt
          end
    end.

(** The body of [for email, user_id, first_name, last_name in users]. *)
Definition process_user (w : world) (u : user) : M unit :=
  if negb (String.eqb (email u) "val@bbooster.io") then ret tt
  else
    recordings <- list_recordings w (user_id u) ;;
    for_each recordings (process_recording w (email u)).

Definition main (w : world) : M unit :=
  load_access_token w ;;;
  load_completed_meeting_ids ;;;
  users <- get_users w ;;
  for_each users (process_user w).

(** ** Vocabulary of the statements *)

(** The size that [download_recording] expects, when the header lets [int]
    return. *)
Definition expected_size (h : header) : option Z :=
  match h with
  | Absent => Some 0
  | Declared n => Some n
  | Malformed => None
  end.

(** The size of a file of the disk, as [os.path.getsize] gives it. *)
Definition size_on_disk (st : state) (path : string) : option Z :=
  (fun bytes : list Byte.byte => Z.of_nat (length bytes)) <$> disk st !! path.

(** The number of bytes that the body of a response delivers. *)
Definition body_size (r : response) : Z := Z.of_nat (length (concat (chunks r))).

(** [respects R c]: whatever [c] does to the state, it stays within [R]. *)
Definition respects (R : state -> state -> Prop) {A} (c : M A) : Prop :=
  forall st : state, R st (c st).2.

(** The set of completed recordings only grows. *)
Definition ledger_grows (st st' : state) : Prop :=
  COMPLETED_MEETING_IDS st ⊆ COMPLETED_MEETING_IDS st'.

(** The trace only grows, and only by requests for downloads. *)
Definition is_download (ev : event) : Prop :=
  match ev with DownloadRequest _ => True | _ => False end.

Definition only_downloads (st st' : state) : Prop :=
  exists evs : list event, trace st' = trace st ++ evs /\ Forall is_download evs.

Definition is_owner (u : user) : bool := String.eqb (email u) "val@bbooster.io".

Definition not_completed (done : gset string) (r : recording) : bool :=
  bool_decide (uuid r ∉ done).

(** A small world for examples: the token endpoint answers [token], there is
    one page of users, every listing returns [recordings], every download is
    answered by [reply url], every deletion by [status], and the range of
    dates has one window. *)
Definition example_world (token : token_reply) (users : list user)
    (recordings : list recording) (reply : string -> http_reply)
    (status : Z) : world :=
  mkWorld 0 1 token (Some 1%nat) (fun _ => Return users)
    (fun _ _ _ _ => Return recordings) (fun _ url => reply url)
    (fun _ _ => Return status)
    (fun r d => (dl_recording_id d +:+ "." +:+ dl_file_extension d, topic r))
    (fun path => path) (fun name => name).

Definition owner : user := mkUser "val@bbooster.io" "u1" "Val" "V".
Definition guest : user := mkUser "guest@example.org" "u2" "Gu" "Est".

Definition bytes_ab : list Byte.byte := [Byte.x61; Byte.x62].

(** Two files of a recording: one still being processed by the provider
    (empty [file_type]) and one video. *)
Definition pending_file : recording_file :=
  mkFile "" "" "f0" "" "https://zoom.example/f0".
Definition video_file : recording_file :=
  mkFile "MP4" "MP4" "f1" "shared_screen_with_speaker_view" "https://zoom.example/f1".
Definition audio_file : recording_file :=
  mkFile "M4A" "M4A" "f2" "audio_only" "https://zoom.example/f2".

(** Answers to a download: the two bytes arrive as declared; or they arrive
    and the stream then breaks; or the stream breaks at once and there is no
    [content-length]. *)
Definition reply_ok : http_reply :=
  Replied (mkResponse (Declared 2) [bytes_ab] Complete).
Definition reply_broken_late : http_reply :=
  Replied (mkResponse (Declared 2) [bytes_ab] (Broken ConnectionError)).
Definition reply_broken_headerless : http_reply :=
  Replied (mkResponse Absent [] (Broken ConnectionError)).

(** Recordings for the examples: two whole ones, and one whose first file
    the provider has not finished. *)
Definition standup : recording :=
  mkRecording "R1==" "101" "Standup" "2025-01-10T10:00:00Z" [video_file; audio_file].
Definition retro : recording :=
  mkRecording "R2==" "102" "Retro" "2025-01-11T10:00:00Z" [audio_file].
Definition half_ready : recording :=
  mkRecording "R3==" "103" "Planning" "2025-01-12T10:00:00Z" [pending_file; video_file].

(** Every download arrives whole, but the stream of the video breaks. *)
Definition video_breaks (url : string) : http_reply :=
  if String.eqb url "https://zoom.example/f1?access_token=tok"
  then reply_broken_late else reply_ok.

(** Worlds for the examples: the owner and a guest are listed, the token is
    ["tok"], deletions succeed, and the listing and the downloads are as
    given. *)
Definition world_of (recordings : list recording)
    (reply : string -> http_reply) : world :=
  example_world (TokenObject (Some "tok")) [guest; owner] recordings reply 204.

(** A state in which the token is loaded and nothing else has happened. *)
Definition ready : state :=
  mkState (Some "tok") (Some "Bearer tok") ∅ None ∅ [TokenRequest].

(** Every download arrives whole, but the video is three bytes short of the
    five that its header declares. *)
Definition video_short (url : string) : http_reply :=
  if String.eqb url "https://zoom.example/f1?access_token=tok"
  then Replied (mkResponse (Declared 5) [bytes_ab] Complete) else reply_ok.

(** ** Vocabulary of the further statements *)

(** The category that [get_downloads] gives to a file. *)
Definition category (rf : recording_file) : string :=
  if String.eqb (file_type rf) "" then "incomplete"%string
  else if negb (String.eqb (file_type rf) "TIMELINE") then file_recording_type rf
  else file_type rf.

(** The address that [get_downloads] builds for a file. *)
Definition token_url (token : string) (rf : recording_file) : string :=
  file_download_url rf +:+ "?access_token=" +:+ token.

Definition is_incomplete (rf : recording_file) : bool :=
  String.eqb (category rf) "incomplete".

(** The tuple that [get_downloads] builds for a file. *)
Definition download_of (token : string) (rf : recording_file) : download :=
  mkDownload (file_type rf) (file_extension rf) (token_url token rf)
    (category rf) (file_id rf).



(** Between two states, nothing happened but requests for downloads and
    writes to the disk. *)
Definition downloads_only (st st' : state) : Prop :=
  ACCESS_TOKEN st' = ACCESS_TOKEN st
  /\ AUTHORIZATION_HEADER st' = AUTHORIZATION_HEADER st
  /\ COMPLETED_MEETING_IDS st' = COMPLETED_MEETING_IDS st
  /\ log_file st' = log_file st
  /\ only_downloads st st'.


(** Between two states, the set of completed recordings has only grown and
    the log has only been appended to. *)
Definition append_only (st st' : state) : Prop :=
  COMPLETED_MEETING_IDS st ⊆ COMPLETED_MEETING_IDS st'
  /\ (is_Some (log_file st) -> is_Some (log_file st'))
  /\ exists suffix : string,
       default EmptyString (log_file st')
       = default EmptyString (log_file st) +:+ suffix.

(** Between two states, the set has gained no identifier outside [ids]. *)
Definition gains_within (ids : gset string) (st st' : state) : Prop :=
  COMPLETED_MEETING_IDS st' ⊆ COMPLETED_MEETING_IDS st ∪ ids.


(** The character class of [invalid_chars_pattern] in [format_filename]: the
    characters [<], [>], [:], the double quote, [/], the backslash, the bar,
    [?], [*], and the control characters 0 to 31. *)
Definition invalid_char (c : ascii) : bool :=
  let n := N_of_ascii c in
  ((n <=? 31) || (n =? 60) || (n =? 62) || (n =? 58) || (n =? 34) || (n =? 47)
   || (n =? 92) || (n =? 124) || (n =? 63) || (n =? 42))%N.

(** [regex.sub(invalid_chars_pattern, '', topic)] *)
Fixpoint sub_invalid_chars (topic : string) : string :=
  match topic with
  | EmptyString => EmptyString
  | String c topic' =>
      if invalid_char c then sub_invalid_chars topic'
      else String c (sub_invalid_chars topic')
  end.

(** The shape of a line that the reading of a text delivers: no CR, and no
    LF but at the very end. *)
Fixpoint no_cr (s : string) : bool :=
  match s with
  | EmptyString => true
  | String c s' => negb (Ascii.eqb c CR) && no_cr s'
  end.

Fixpoint line_shape (s : string) : bool :=
  match s with
  | EmptyString => true
  | String c s' =>
      negb (Ascii.eqb c CR)
      && (if Ascii.eqb c LF
          then match s' with EmptyString => true | String _ _ => false end
          else line_shape s')
  end.

Fixpoint chars_ok (s : string) : bool :=
  match s with
  | EmptyString => true
  | String c s' => negb (invalid_char c) && chars_ok s'
  end.

(** * Properties *)

(** ** The windows of [per_delta] *)

Lemma per_delta_past (fuel : nat) (s e w : Z) :
  e <= s -> per_delta fuel s e w = Some [].
Proof.
  intros Hes. destruct fuel; simpl;
    destruct (Z.ltb_spec s e); try lia; reflexivity.
Qed.











Example per_delta_0_5_2 : per_delta 5 0 5 2 = Some [(0, 2); (2, 4); (4, 5)].
Proof. reflexivity. Qed.


(** C7, as the code has it.  With [start > end] the generator raises nothing:
    the loop test fails at once and the sequence of windows is empty,
    whatever the window size and the fuel. *)
Theorem per_delta_reversed_range (fuel : nat) (s e w : Z) :
  e < s -> per_delta fuel s e w = Some [].
Proof. intros Hes. apply per_delta_past. lia. Qed.

Lemma per_delta_reversed_range_witness :
  3 < 5 /\ per_delta 0 5 3 1 = Some [].
Proof. split; [lia | apply (per_delta_reversed_range 0 5 3 1); lia]. Defined.

(** C7, as the claim has it, fails: called with [start = 5 > end = 3] the
    generator ends normally, having yielded no window. *)
Lemma per_delta_reversed_range_counterexample :
  (5 > 3) /\ per_delta 1 5 3 1 = Some [] /\ per_delta 1 5 3 1 <> None.
Proof. split; [lia | split; [reflexivity | discriminate]]. Qed.

(** ** The log of completed recordings *)

Lemma app_String (c : ascii) (s t : string) :
  String c s +:+ t = String c (s +:+ t).
Proof. reflexivity. Qed.

Lemma app_empty (t : string) : EmptyString +:+ t = t.
Proof. reflexivity. Qed.

Lemma app_assoc_string (a b c : string) : (a +:+ b) +:+ c = a +:+ (b +:+ c).
Proof.
  induction a as [|x a IH]; [reflexivity |].
  rewrite !app_String, IH. reflexivity.
Qed.

Lemma whole_lines_inv (s : string) :
  whole_lines s = true ->
  s = EmptyString \/ exists u, s = u +:+ String LF EmptyString.
Proof.
  induction s as [|c s IH]; [left; reflexivity |].
  intros H. right. destruct s as [|c' s'].
  - simpl in H. apply Ascii.eqb_eq in H. subst c. exists EmptyString. reflexivity.
  - change (whole_lines (String c' s') = true) in H.
    destruct (IH H) as [Hnil | (u & Hu)]; [discriminate |].
    exists (String c u). rewrite app_String, <- Hu. reflexivity.
Qed.

Lemma whole_lines_snoc (s : string) :
  whole_lines (s +:+ String LF EmptyString) = true.
Proof.
  induction s as [|c s IH]; [reflexivity |].
  rewrite app_String. destruct s as [|c' s'].
  - reflexivity.
  - rewrite app_String in *. exact IH.
Qed.

Lemma universal_newlines_app (a b : string) (pending : bool) :
  universal_newlines pending (a +:+ String LF b)
  = universal_newlines pending (a +:+ String LF EmptyString)
    +:+ universal_newlines false b.
Proof.
  revert pending. induction a as [|c a IH]; intros pending.
  - rewrite !app_empty. simpl. destruct pending; reflexivity.
  - rewrite !app_String. simpl.
    destruct (Ascii.eqb c CR); [rewrite IH; reflexivity |].
    destruct (Ascii.eqb c LF); [destruct pending |]; rewrite IH; reflexivity.
Qed.

Lemma universal_newlines_ends (a : string) (pending : bool) :
  (a = EmptyString /\ pending = true)
  \/ exists u, universal_newlines pending (a +:+ String LF EmptyString)
               = u +:+ String LF EmptyString.
Proof.
  revert pending. induction a as [|c a IH]; intros pending.
  - destruct pending; [left; split; reflexivity |].
    right. exists EmptyString. reflexivity.
  - right. rewrite app_String. simpl.
    destruct (Ascii.eqb c CR).
    { destruct (IH true) as [[-> _] | (u & ->)].
      - exists EmptyString. reflexivity.
      - exists (String LF u). reflexivity. }
    destruct (IH false) as [[_ Hf] | (u & Hu)]; [discriminate |].
    rewrite Hu. destruct (Ascii.eqb c LF); [destruct pending |].
    + exists u. reflexivity.
    + exists (String LF u). reflexivity.
    + exists (String c u). reflexivity.
Qed.

Lemma universal_newlines_line (s : string) :
  no_line_break s = true ->
  universal_newlines false (s +:+ String LF EmptyString)
  = s +:+ String LF EmptyString.
Proof.
  induction s as [|c s IH]; intros H; [reflexivity |].
  simpl in H. apply andb_prop in H as [H Hs]. apply andb_prop in H as [Hlf Hcr].
  rewrite app_String. simpl.
  destruct (Ascii.eqb c CR); [discriminate |].
  destruct (Ascii.eqb c LF); [discriminate |].
  rewrite (IH Hs). reflexivity.
Qed.

Lemma file_lines_nonempty (c : ascii) (s : string) : file_lines (String c s) <> [].
Proof.
  simpl. destruct (Ascii.eqb c LF); [discriminate |].
  destruct (file_lines s); discriminate.
Qed.

Lemma file_lines_app (x y : string) :
  file_lines (x +:+ String LF y)
  = file_lines (x +:+ String LF EmptyString) ++ file_lines y.
Proof.
  induction x as [|c x IH]; [reflexivity |].
  rewrite !app_String. simpl. destruct (Ascii.eqb c LF).
  - rewrite IH. reflexivity.
  - rewrite IH.
    destruct (file_lines (x +:+ String LF EmptyString)) as [|l ls] eqn:Hl;
      [| reflexivity].
    exfalso. destruct x; rewrite ?app_empty, ?app_String in Hl;
      exact (file_lines_nonempty _ _ Hl).
Qed.

Lemma file_lines_line (s : string) :
  no_line_break s = true ->
  file_lines (s +:+ String LF EmptyString) = [s +:+ String LF EmptyString].
Proof.
  induction s as [|c s IH]; intros H; [reflexivity |].
  simpl in H. apply andb_prop in H as [H Hs]. apply andb_prop in H as [Hlf _].
  rewrite app_String. simpl.
  destruct (Ascii.eqb c LF); [discriminate |].
  rewrite (IH Hs). reflexivity.
Qed.

Lemma rstrip_line (s : string) : rstrip (s +:+ String LF EmptyString) = rstrip s.
Proof.
  induction s as [|c s IH]; [reflexivity |].
  rewrite app_String. simpl. rewrite IH. reflexivity.
Qed.

Lemma lstrip_length (s : string) : (String.length (lstrip s) <= String.length s)%nat.
Proof.
  induction s as [|c s IH]; simpl; [lia |].
  destruct (isspace c); simpl; lia.
Qed.

Lemma lstrip_fixed (c : ascii) (s : string) :
  lstrip (String c s) = String c s -> isspace c = false.
Proof.
  simpl. destruct (isspace c); [| reflexivity].
  intros H. pose proof (lstrip_length s) as Hlen. rewrite H in Hlen.
  simpl in Hlen. lia.
Qed.

Lemma strip_line (s : string) :
  lstrip s = s -> rstrip s = s -> strip (s +:+ String LF EmptyString) = s.
Proof.
  intros Hl Hr. unfold strip. destruct s as [|c s]; [reflexivity |].
  rewrite app_String. simpl. rewrite (lstrip_fixed c s Hl).
  rewrite <- app_String, rstrip_line. exact Hr.
Qed.

Lemma hydrate_appended (text meeting_id : string) :
  line_safe meeting_id -> whole_lines text = true ->
  meeting_id ∈ hydrate (text +:+ meeting_id +:+ String LF EmptyString).
Proof.
  intros (Hl & Hr & Hnb) Hwhole. unfold hydrate.
  apply elem_of_list_to_set, list_elem_of_fmap.
  exists (meeting_id +:+ String LF EmptyString).
  split; [symmetry; apply strip_line; assumption |].
  destruct (whole_lines_inv text Hwhole) as [-> | (u & ->)].
  - rewrite app_empty.
    rewrite (universal_newlines_line _ Hnb), (file_lines_line _ Hnb). left.
  - rewrite app_assoc_string, app_String, app_empty.
    rewrite universal_newlines_app, (universal_newlines_line _ Hnb).
    destruct (universal_newlines_ends u false) as [[_ Hf] | (v & ->)];
      [discriminate |].
    rewrite app_assoc_string, app_String, app_empty.
    rewrite file_lines_app, (file_lines_line _ Hnb).
    apply elem_of_app. right. left.
Qed.

(** C4, as the code has it.  For an identifier that has no white space at
    either end and no line break inside, and a log made of whole lines (as it
    is when only this program writes it), marking it complete returns, leaves
    the log made of whole lines, and a new process that reads the log back
    has the identifier in its set. *)
Theorem mark_complete_then_hydrate (meeting_id : string) (st : state) :
  line_safe meeting_id ->
  whole_lines (default EmptyString (log_file st)) = true ->
  (mark_complete meeting_id st).1 = Return tt
  /\ meeting_id ∈ COMPLETED_MEETING_IDS (mark_complete meeting_id st).2
  /\ whole_lines (default EmptyString (log_file (mark_complete meeting_id st).2)) = true
  /\ meeting_id ∈
       COMPLETED_MEETING_IDS
         (load_completed_meeting_ids
            (initial_state (log_file (mark_complete meeting_id st).2)
                   (disk (mark_complete meeting_id st).2))).2.
Proof.
  intros Hsafe Hwhole. split; [reflexivity |]. split; [| split].
  - simpl. set_solver.
  - simpl. rewrite <- app_assoc_string. apply whole_lines_snoc.
  - simpl. apply elem_of_union. right.
    apply hydrate_appended; assumption.
Qed.

Lemma mark_complete_then_hydrate_witness :
  line_safe "abc==" /\ whole_lines (default EmptyString (log_file (initial_state None ∅))) = true
  /\ "abc=="%string ∈
       COMPLETED_MEETING_IDS
         (load_completed_meeting_ids
            (initial_state (log_file (mark_complete "abc==" (initial_state None ∅)).2)
                   (disk (mark_complete "abc==" (initial_state None ∅)).2))).2.
Proof.
  assert (Hsafe : line_safe "abc==") by (repeat split; reflexivity).
  split; [exact Hsafe |]. split; [reflexivity |].
  apply (mark_complete_then_hydrate "abc==" (initial_state None ∅) Hsafe eq_refl).
Defined.

(** C4, as the claim has it, fails in three ways.  An identifier that starts
    with a space is read back without it; an identifier appended to a log
    whose last line has no newline is read back glued to that line; and an
    identifier with a line break inside is read back as two entries.  In each
    case the set of the restarted process does not hold the identifier. *)
Lemma mark_complete_then_hydrate_counterexample :
  (COMPLETED_MEETING_IDS
     (load_completed_meeting_ids
        (initial_state (log_file (mark_complete " a" (initial_state None ∅)).2) ∅)).2
   = {[ "a"%string ]}
   /\ " a"%string ∉
        COMPLETED_MEETING_IDS
          (load_completed_meeting_ids
             (initial_state (log_file (mark_complete " a" (initial_state None ∅)).2) ∅)).2)
  /\ (COMPLETED_MEETING_IDS
        (load_completed_meeting_ids
           (initial_state
              (log_file (mark_complete "a" (initial_state (Some "x"%string) ∅)).2) ∅)).2
      = {[ "xa"%string ]}
      /\ "a"%string ∉
           COMPLETED_MEETING_IDS
             (load_completed_meeting_ids
                (initial_state
                   (log_file (mark_complete "a" (initial_state (Some "x"%string) ∅)).2)
                   ∅)).2)
  /\ (COMPLETED_MEETING_IDS
        (load_completed_meeting_ids
           (initial_state
              (log_file
                 (mark_complete (String "a" (String LF "b")) (initial_state None ∅)).2)
              ∅)).2
      = {[ "a"%string; "b"%string ]}
      /\ String "a" (String LF "b") ∉
           COMPLETED_MEETING_IDS
             (load_completed_meeting_ids
                (initial_state
                   (log_file
                      (mark_complete (String "a" (String LF "b"))
                         (initial_state None ∅)).2)
                   ∅)).2).
Proof.
  assert (H1 : COMPLETED_MEETING_IDS
            (load_completed_meeting_ids
               (initial_state
                  (log_file (mark_complete " a" (initial_state None ∅)).2) ∅)).2
          = {[ "a"%string ]}) by (vm_compute; reflexivity).
  assert (H2 : COMPLETED_MEETING_IDS
            (load_completed_meeting_ids
               (initial_state
                  (log_file (mark_complete "a" (initial_state (Some "x"%string) ∅)).2)
                  ∅)).2
          = {[ "xa"%string ]}) by (vm_compute; reflexivity).
  assert (H3 : COMPLETED_MEETING_IDS
            (load_completed_meeting_ids
               (initial_state
                  (log_file
                     (mark_complete (String "a" (String LF "b"))
                        (initial_state None ∅)).2)
                  ∅)).2
          = {[ "a"%string; "b"%string ]}) by (vm_compute; reflexivity).
  rewrite H1, H2, H3. repeat split.
  - intros Hin. apply elem_of_singleton in Hin. discriminate.
  - intros Hin. apply elem_of_singleton in Hin. discriminate.
  - intros Hin. apply elem_of_union in Hin as [Hin | Hin];
      apply elem_of_singleton in Hin; discriminate.
Qed.

(** ** The downloader *)

Lemma handler_Color_bound :
  read_name download_recording_locals "Color" = ret tt.
Proof. reflexivity. Qed.

Lemma handler_recording_id_unbound :
  read_name download_recording_locals "recording_id"
  = raise (NameError "recording_id").
Proof. reflexivity. Qed.


Lemma download_recording_replied (w : world)
    (url email filename folder_name : string) (st : state) (r : response) :
  download_reply w (trace st) url = Replied r ->
  download_recording w url email filename folder_name st
  = let st1 := set_trace (trace st ++ [DownloadRequest url]) st in
    match expected_size (content_length r) with
    | None => (Raise ValueError, st1)
    | Some total_size =>
        let st2 :=
          set_disk (<[ full_filename w filename folder_name := concat (chunks r) ]>
                      (disk st1)) st1 in
        match ending r with
        | Complete => (Return (body_size r =? total_size), st2)
        | Broken e =>
            if is_Exception e then (Raise (NameError "recording_id"), st2)
            else (Raise e, st2)
        end
    end.
Proof.
  intros Hreply.
  unfold download_recording, requests_get, bind, get_state, emit.
  simpl. rewrite Hreply. unfold ret at 1.
  destruct (content_length r) as [|n|]; simpl; [| | reflexivity];
    unfold try_except, bind, write_chunks;
    (destruct (ending r) as [|e]; simpl;
     [ unfold getsize; simpl; rewrite lookup_insert_eq; reflexivity
     | destruct (is_Exception e); reflexivity ]).
Qed.

Lemma size_on_disk_written (path : string) (bytes : list Byte.byte) (st : state) :
  size_on_disk (set_disk (<[ path := bytes ]> (disk st)) st) path
  = Some (Z.of_nat (length bytes)).
Proof. unfold size_on_disk. simpl. rewrite lookup_insert_eq. reflexivity. Qed.

(** C5, as the code has it.  When the request is answered, the call returns
    [True] exactly when the body arrived to its end without an error and the
    file on disk has the size that the [content-length] header declares (0
    when there is none); and a body that ends, without an error, short of the
    declared length makes the call return [False], the short file being on
    disk. *)
Theorem download_recording_success_iff (w : world)
    (url email filename folder_name : string) (st : state) (r : response) :
  download_reply w (trace st) url = Replied r ->
  ((download_recording w url email filename folder_name st).1 = Return true
   <-> ending r = Complete
       /\ exists n : Z,
            expected_size (content_length r) = Some n
            /\ size_on_disk (download_recording w url email filename folder_name st).2
                 (full_filename w filename folder_name) = Some n)
  /\ (forall n : Z,
        content_length r = Declared n -> ending r = Complete -> body_size r < n ->
        (download_recording w url email filename folder_name st).1 = Return false
        /\ size_on_disk (download_recording w url email filename folder_name st).2
             (full_filename w filename folder_name) = Some (body_size r)).
Proof.
  intros Hreply.
  rewrite (download_recording_replied w url email filename folder_name st r Hreply).
  cbv zeta. split.
  - destruct (expected_size (content_length r)) as [total|] eqn:Hexp.
    + destruct (ending r) as [|e] eqn:Hend.
      * cbn [fst snd]. rewrite size_on_disk_written. fold (body_size r).
        split.
        -- intros H. injection H as H. apply Z.eqb_eq in H.
           split; [reflexivity |]. exists total. split; congruence.
        -- intros (_ & n & Hn & Hsize). injection Hn as <-.
           injection Hsize as ->. rewrite Z.eqb_refl. reflexivity.
      * split.
        -- destruct (is_Exception e); discriminate.
        -- intros (H & _). discriminate.
    + split; [discriminate |].
      intros (_ & n & Hn & _). discriminate.
  - intros n Hdecl Hend Hshort. rewrite Hdecl, Hend. simpl expected_size.
    cbn [fst snd]. rewrite size_on_disk_written. fold (body_size r).
    split; [| reflexivity].
    destruct (Z.eqb_spec (body_size r) n); [lia | reflexivity].
Qed.

Lemma download_recording_success_iff_witness :
  download_reply (world_of [standup] (fun _ => reply_ok)) (trace ready)
    "https://zoom.example/f1"
  = Replied (mkResponse (Declared 2) [bytes_ab] Complete)
  /\ (((download_recording (world_of [standup] (fun _ => reply_ok))
          "https://zoom.example/f1" "val@bbooster.io" "f1.MP4" "Standup"
          ready).1 = Return true
       <-> ending (mkResponse (Declared 2) [bytes_ab] Complete) = Complete
           /\ exists n : Z,
                expected_size
                  (content_length (mkResponse (Declared 2) [bytes_ab] Complete))
                = Some n
                /\ size_on_disk
                     (download_recording (world_of [standup] (fun _ => reply_ok))
                        "https://zoom.example/f1" "val@bbooster.io" "f1.MP4"
                        "Standup" ready).2
                     (full_filename (world_of [standup] (fun _ => reply_ok))
                        "f1.MP4" "Standup") = Some n)
      /\ (forall n : Z,
            content_length (mkResponse (Declared 2) [bytes_ab] Complete)
            = Declared n ->
            ending (mkResponse (Declared 2) [bytes_ab] Complete) = Complete ->
            body_size (mkResponse (Declared 2) [bytes_ab] Complete) < n ->
            (download_recording (world_of [standup] (fun _ => reply_ok))
               "https://zoom.example/f1" "val@bbooster.io" "f1.MP4" "Standup"
               ready).1 = Return false
            /\ size_on_disk
                 (download_recording (world_of [standup] (fun _ => reply_ok))
                    "https://zoom.example/f1" "val@bbooster.io" "f1.MP4"
                    "Standup" ready).2
                 (full_filename (world_of [standup] (fun _ => reply_ok))
                    "f1.MP4" "Standup")
               = Some (body_size (mkResponse (Declared 2) [bytes_ab] Complete)))).
Proof.
  split; [reflexivity |].
  apply (download_recording_success_iff
           (world_of [standup] (fun _ => reply_ok))
           "https://zoom.example/f1" "val@bbooster.io" "f1.MP4" "Standup"
           ready (mkResponse (Declared 2) [bytes_ab] Complete)).
  reflexivity.
Defined.

Example download_recording_whole :
  (download_recording (world_of [standup] (fun _ => reply_ok))
     "https://zoom.example/f1" "val@bbooster.io" "f1.MP4" "Standup" ready).1
  = Return true.
Proof. vm_compute. reflexivity. Qed.

(** C5, as the claim has it, fails: the two declared bytes arrive and are
    written, then the stream breaks; the file on disk has the declared size
    and the call does not return [True]. *)
Lemma download_recording_success_iff_counterexample :
  download_reply (world_of [standup] (fun _ => reply_broken_late)) (trace ready)
    "https://zoom.example/f1"
  = Replied (mkResponse (Declared 2) [bytes_ab] (Broken ConnectionError))
  /\ size_on_disk
       (download_recording (world_of [standup] (fun _ => reply_broken_late))
          "https://zoom.example/f1" "val@bbooster.io" "f1.MP4" "Standup" ready).2
       "drive/MyDrive/Zoom Recordings/2025/Standup/f1.MP4" = Some 2
  /\ (download_recording (world_of [standup] (fun _ => reply_broken_late))
        "https://zoom.example/f1" "val@bbooster.io" "f1.MP4" "Standup" ready).1
     <> Return true.
Proof.
  split; [reflexivity |]. split; [vm_compute; reflexivity |].
  vm_compute. discriminate.
Qed.

(** C10, as the code has it.  When the answer has no [content-length] header,
    [int] is applied to the default 0, so the expected size is 0: the call
    returns [True] exactly when the body arrived to its end without an error
    and the file on disk is empty, and every non-empty body that arrived to
    its end makes the call return [False]. *)
Theorem download_recording_without_content_length (w : world)
    (url email filename folder_name : string) (st : state) (r : response) :
  download_reply w (trace st) url = Replied r ->
  content_length r = Absent ->
  (forall st0 : state, int_content_length (content_length r) st0 = (Return 0, st0))
  /\ ((download_recording w url email filename folder_name st).1 = Return true
      <-> ending r = Complete
          /\ size_on_disk (download_recording w url email filename folder_name st).2
               (full_filename w filename folder_name) = Some 0)
  /\ (ending r = Complete -> body_size r <> 0 ->
      (download_recording w url email filename folder_name st).1 = Return false).
Proof.
  intros Hreply Habsent. split; [rewrite Habsent; reflexivity |].
  rewrite (download_recording_replied w url email filename folder_name st r Hreply).
  rewrite Habsent. simpl expected_size. cbv zeta.
  destruct (ending r) as [|e] eqn:Hend.
  - cbn [fst snd]. rewrite size_on_disk_written. fold (body_size r). split.
    + split.
      * intros H. injection H as H. apply Z.eqb_eq in H.
        split; congruence.
      * intros (_ & Hsize). injection Hsize as ->. reflexivity.
    + intros _ Hne. destruct (Z.eqb_spec (body_size r) 0); congruence.
  - split; [| discriminate]. split.
    + destruct (is_Exception e); discriminate.
    + intros (H & _). discriminate.
Qed.

Lemma download_recording_without_content_length_witness :
  download_reply
    (world_of [standup] (fun _ => Replied (mkResponse Absent [bytes_ab] Complete)))
    (trace ready) "https://zoom.example/f1"
  = Replied (mkResponse Absent [bytes_ab] Complete)
  /\ content_length (mkResponse Absent [bytes_ab] Complete) = Absent
  /\ (download_recording
        (world_of [standup] (fun _ => Replied (mkResponse Absent [bytes_ab] Complete)))
        "https://zoom.example/f1" "val@bbooster.io" "f1.MP4" "Standup" ready).1
     = Return false.
Proof.
  split; [reflexivity |]. split; [reflexivity |].
  apply (download_recording_without_content_length
           (world_of [standup]
              (fun _ => Replied (mkResponse Absent [bytes_ab] Complete)))
           "https://zoom.example/f1" "val@bbooster.io" "f1.MP4" "Standup"
           ready (mkResponse Absent [bytes_ab] Complete) eq_refl eq_refl).
  - reflexivity.
  - vm_compute. discriminate.
Defined.

(** C10, as the claim has it, fails: there is no [content-length] header and
    the stream breaks before any byte arrives; the file on disk is empty and
    the call does not return [True]. *)
Lemma download_recording_without_content_length_counterexample :
  download_reply (world_of [standup] (fun _ => reply_broken_headerless))
    (trace ready) "https://zoom.example/f1"
  = Replied (mkResponse Absent [] (Broken ConnectionError))
  /\ size_on_disk
       (download_recording (world_of [standup] (fun _ => reply_broken_headerless))
          "https://zoom.example/f1" "val@bbooster.io" "f1.MP4" "Standup" ready).2
       "drive/MyDrive/Zoom Recordings/2025/Standup/f1.MP4" = Some 0
  /\ (download_recording (world_of [standup] (fun _ => reply_broken_headerless))
        "https://zoom.example/f1" "val@bbooster.io" "f1.MP4" "Standup" ready).1
     <> Return true.
Proof.
  split; [reflexivity |]. split; [vm_compute; reflexivity |].
  vm_compute. discriminate.
Qed.

(** An error of the stream reaches the handler of [download_recording], and
    the handler itself raises: its message reads [recording_id], a name that
    is bound neither in the function nor in the module. *)
Lemma download_recording_broken_stream (w : world)
    (url email filename folder_name : string) (st : state) (r : response) (e : exn) :
  download_reply w (trace st) url = Replied r ->
  content_length r <> Malformed ->
  ending r = Broken e -> is_Exception e = true ->
  (download_recording w url email filename folder_name st).1
  = Raise (NameError "recording_id").
Proof.
  intros Hreply Hheader Hend Hexn.
  rewrite (download_recording_replied w url email filename folder_name st r Hreply).
  destruct (content_length r); try congruence;
    simpl; rewrite Hend, Hexn; reflexivity.
Qed.

(** C3, on the code.  The owner has two recordings; the stream of the first
    file of the first one breaks once its two bytes are written.
    [download_recording] does not return [False]: it raises [NameError], and
    so does [main], which stops there: the second file of the recording and
    the second recording are never asked for. *)
Theorem stream_error_aborts_run :
  download_recording (world_of [standup; retro] video_breaks)
    "https://zoom.example/f1?access_token=tok" "val@bbooster.io" "f1.MP4"
    "Standup" ready
  = (Raise (NameError "recording_id"),
     mkState (Some "tok") (Some "Bearer tok") ∅ None
       {[ "drive/MyDrive/Zoom Recordings/2025/Standup/f1.MP4"%string := bytes_ab ]}
       [TokenRequest; DownloadRequest "https://zoom.example/f1?access_token=tok"])
  /\ main (world_of [standup; retro] video_breaks) (initial_state None ∅)
     = (Raise (NameError "recording_id"),
        mkState (Some "tok") (Some "Bearer tok") ∅ None
          {[ "drive/MyDrive/Zoom Recordings/2025/Standup/f1.MP4"%string := bytes_ab ]}
          [TokenRequest; UsersRequest; UsersPageRequest 1;
           RecordingsRequest "u1" 0 1;
           DownloadRequest "https://zoom.example/f1?access_token=tok"]).
Proof. split; vm_compute; reflexivity. Qed.

(** ** The run: authentication and the choice of the owner *)



Lemma process_user_other (w : world) (u : user) (st : state) :
  is_owner u = false -> process_user w u st = (Return tt, st).
Proof.
  unfold process_user, is_owner. intros ->. reflexivity.
Qed.

(** C9.  A user whose address is not ['val@bbooster.io'] is passed over: the
    body of the loop returns at once and leaves the state as it was, so that
    no listing, download, deletion or log entry is made for that user; and a
    run over any list of users is the run over the entries of the list that
    carry this one address. *)
Theorem only_owner_is_processed (w : world) :
  (forall (u : user) (st : state),
     email u <> "val@bbooster.io"%string -> process_user w u st = (Return tt, st))
  /\ (forall (users : list user) (st : state),
        for_each users (process_user w) st
        = for_each (List.filter is_owner users) (process_user w) st).
Proof.
  split.
  - intros u st Hne. apply process_user_other. unfold is_owner.
    apply String.eqb_neq. exact Hne.
  - induction users as [|u users IH]; intros st; [reflexivity |].
    simpl. destruct (is_owner u) eqn:Hown.
    + simpl. unfold bind. destruct (process_user w u st) as [[[]|e] st'];
        [apply IH | reflexivity].
    + unfold bind. rewrite (process_user_other w u st Hown). apply IH.
Qed.

Lemma only_owner_is_processed_witness :
  email guest <> "val@bbooster.io"%string
  /\ process_user (world_of [standup] (fun _ => reply_ok)) guest ready
     = (Return tt, ready).
Proof.
  assert (Hne : email guest <> "val@bbooster.io"%string) by discriminate.
  split; [exact Hne |].
  exact (proj1 (only_owner_is_processed (world_of [standup] (fun _ => reply_ok)))
           guest ready Hne).
Defined.

(** ** What the downloads leave untouched *)

Create HintDb frame.

Section Frame.

Variable R : state -> state -> Prop.
Hypothesis R_refl : forall st, R st st.
Hypothesis R_trans : forall a b c, R a b -> R b c -> R a c.
Hypothesis R_download :
  forall url st, R st (set_trace (trace st ++ [DownloadRequest url]) st).
Hypothesis R_disk : forall d st, R st (set_disk d st).

Lemma respects_ret {A} (a : A) : respects R (ret a).
Proof. intros st. apply R_refl. Qed.

Lemma respects_raise {A} (e : exn) : respects R (@raise A e).
Proof. intros st. apply R_refl. Qed.

Lemma respects_bind {A B} (c : M A) (k : A -> M B) :
  respects R c -> (forall a, respects R (k a)) -> respects R (bind c k).
Proof.
  intros Hc Hk st. unfold bind. specialize (Hc st).
  destruct (c st) as [[a|e] st']; simpl in Hc.
  - eapply R_trans; [exact Hc | apply Hk].
  - exact Hc.
Qed.

Lemma respects_try_except {A} (body : M A) (handler : exn -> M A) :
  respects R body -> (forall e, respects R (handler e)) ->
  respects R (try_except body handler).
Proof.
  intros Hb Hh st. unfold try_except. specialize (Hb st).
  destruct (body st) as [[a|e] st']; simpl in Hb; [exact Hb |].
  destruct (is_Exception e); [| exact Hb].
  eapply R_trans; [exact Hb | apply Hh].
Qed.

Lemma respects_get_state : respects R get_state.
Proof. intros st. apply R_refl. Qed.

Lemma respects_read_global (name : string) (field : state -> option string) :
  respects R (read_global name field).
Proof. intros st. unfold read_global. destruct (field st); apply R_refl. Qed.

Lemma respects_read_name (locals : list string) (x : string) :
  respects R (read_name locals x).
Proof.
  unfold read_name. destruct (_ || _);
    [apply respects_ret | apply respects_raise].
Qed.

#[local] Hint Resolve respects_ret respects_raise respects_get_state
  respects_read_global respects_read_name : frame.

Lemma respects_map_result {A B} (f : A -> B) (c : M A) :
  respects R c -> respects R (f <$$> c).
Proof. intros Hc. apply respects_bind; auto with frame. Qed.

Lemma respects_requests_get (w : world) (url : string) :
  respects R (requests_get w url).
Proof.
  unfold requests_get. apply respects_bind; [auto with frame |]. intros st0.
  apply respects_bind; [intros st; apply R_download |]. intros _.
  destruct (download_reply w (trace st0) url); auto with frame.
Qed.

Lemma respects_int_content_length (h : header) :
  respects R (int_content_length h).
Proof. destruct h; simpl; auto with frame. Qed.

Lemma respects_write_chunks (path : string) (r : response) :
  respects R (write_chunks path r).
Proof. intros st. unfold write_chunks. destruct (ending r); apply R_disk. Qed.

Lemma respects_getsize (path : string) : respects R (getsize path).
Proof. intros st. unfold getsize. destruct (disk st !! path); apply R_refl. Qed.

#[local] Hint Resolve respects_requests_get respects_int_content_length
  respects_write_chunks respects_getsize : frame.

Lemma respects_download_recording (w : world)
    (url email filename folder_name : string) :
  respects R (download_recording w url email filename folder_name).
Proof.
  unfold download_recording.
  apply respects_bind; [auto with frame |]. intros r.
  apply respects_bind; [auto with frame |]. intros total_size.
  apply respects_try_except.
  - apply respects_bind; [auto with frame |]. intros _.
    apply respects_bind; auto with frame.
  - intros e. repeat (apply respects_bind; [auto with frame |]; intros _).
    auto with frame.
Qed.

Lemma respects_download_all (w : world) (r : recording) (email : string)
    (downloads : list download) (acc : bool) :
  respects R (download_all w r email downloads acc).
Proof.
  revert acc. induction downloads as [|d ds IH]; intros acc; simpl;
    [auto with frame |].
  destruct (negb _); [| apply IH].
  destruct (format_filename w r d) as [filename folder_name].
  apply respects_bind; [apply respects_download_recording |].
  intros ok. apply IH.
Qed.

Lemma respects_download_again (w : world) (r : recording) (email : string)
    (downloads : list download) (acc : bool) :
  respects R (download_again w r email downloads acc).
Proof.
  revert acc. induction downloads as [|d ds IH]; intros acc; simpl;
    [auto with frame |].
  destruct (negb _); [| apply IH].
  destruct (format_filename w r d) as [filename folder_name].
  apply respects_bind; [apply respects_download_recording |].
  intros ok. apply IH.
Qed.

Lemma respects_get_downloads_loop (files : list recording_file) :
  respects R (get_downloads_loop files).
Proof.
  induction files as [|rf files IH]; simpl; [auto with frame |].
  apply respects_bind.
  - unfold get_download. apply respects_bind; auto with frame.
  - intros d. apply respects_bind; [exact IH | auto with frame].
Qed.

Lemma respects_get_downloads (r : recording) : respects R (get_downloads r).
Proof.
  unfold get_downloads. destruct (recording_files r) eqn:Hfiles;
    [auto with frame | apply respects_get_downloads_loop].
Qed.

Lemma respects_for_each {A} (xs : list A) (body : A -> M unit) :
  (forall x, respects R (body x)) -> respects R (for_each xs body).
Proof.
  intros Hbody. induction xs as [|x xs IH]; simpl; [auto with frame |].
  apply respects_bind; [apply Hbody | intros _; exact IH].
Qed.

(** The body of the loop over the recordings, given that the deletion and
    the entry in the log stay within [R] as well. *)
Lemma respects_process_recording (w : world) (email : string) (r : recording) :
  (forall id, respects R (delete_recording w id)) ->
  (forall id, respects R (mark_complete id)) ->
  respects R (process_recording w email r).
Proof.
  intros Hdelete Hmark. unfold process_recording.
  apply respects_bind; [auto with frame |]. intros st0.
  destruct (bool_decide _); [auto with frame |].
  apply respects_bind.
  { apply respects_try_except; [| auto with frame].
    apply respects_map_result, respects_get_downloads. }
  intros [downloads|]; [| auto with frame].
  apply respects_bind; [apply respects_download_all |]. intros [|].
  - apply respects_bind; [apply Hdelete |].
    intros [|]; [apply Hmark | auto with frame].
  - apply respects_bind.
    { apply respects_try_except; [| auto with frame].
      apply respects_map_result, respects_get_downloads. }
    intros [downloads'|]; [| auto with frame].
    apply respects_bind; [apply respects_download_again |].
    intros [|]; [apply Hmark | auto with frame].
Qed.

End Frame.

Lemma process_recording_ledger_grows (w : world) (email : string) (r : recording) :
  respects ledger_grows (process_recording w email r).
Proof.
  apply respects_process_recording; unfold ledger_grows.
  - intros st. reflexivity.
  - intros a b c Hab Hbc. etrans; eassumption.
  - intros url st. reflexivity.
  - intros d st. reflexivity.
  - intros id st.
    unfold delete_recording, bind, read_global, get_state, emit, answer.
    destruct (AUTHORIZATION_HEADER st); [| reflexivity]. simpl.
    destruct (delete_status w (trace st) id); reflexivity.
  - intros id st. simpl. set_solver.
Qed.

(** ** Recordings that are already in the log *)

Lemma process_recording_completed (w : world) (email : string) (r : recording)
    (st : state) :
  uuid r ∈ COMPLETED_MEETING_IDS st ->
  process_recording w email r st = (Return tt, st).
Proof.
  intros Hin. unfold process_recording, bind, get_state.
  rewrite bool_decide_eq_true_2 by exact Hin. reflexivity.
Qed.

Lemma for_each_not_completed (w : world) (email : string)
    (recordings : list recording) (st : state) (done : gset string) :
  done ⊆ COMPLETED_MEETING_IDS st ->
  for_each recordings (process_recording w email) st
  = for_each (List.filter (not_completed done) recordings)
      (process_recording w email) st.
Proof.
  revert st. induction recordings as [|r recordings IH]; intros st Hdone;
    [reflexivity |].
  simpl. unfold not_completed at 1. destruct (decide (uuid r ∈ done)) as [Hin | Hout].
  - rewrite bool_decide_eq_false_2 by (intros Hnot; exact (Hnot Hin)).
    unfold bind. rewrite process_recording_completed by (apply Hdone, Hin).
    apply IH, Hdone.
  - rewrite bool_decide_eq_true_2 by exact Hout. simpl. unfold bind.
    pose proof (process_recording_ledger_grows w email r st) as Hgrows.
    unfold ledger_grows in Hgrows.
    destruct (process_recording w email r st) as [[[]|e] st']; [| reflexivity].
    apply IH. etrans; [exact Hdone | exact Hgrows].
Qed.

(** C6.  A recording whose [uuid] is in the set of completed recordings is
    passed over by the body of the loop: the call returns at once and the
    state is as before, so that nothing is extracted, downloaded, deleted or
    added to the log for it.  Hence a run over a list of recordings is the run
    over those not known as completed when it starts, a run over recordings
    that are all completed does nothing, and a second run over the same list
    passes over everything that the first run completed. *)
Theorem completed_recordings_are_skipped (w : world) (email : string) :
  (forall (r : recording) (st : state),
     uuid r ∈ COMPLETED_MEETING_IDS st ->
     process_recording w email r st = (Return tt, st))
  /\ (forall (recordings : list recording) (st : state) (done : gset string),
        done ⊆ COMPLETED_MEETING_IDS st ->
        for_each recordings (process_recording w email) st
        = for_each (List.filter (not_completed done) recordings)
            (process_recording w email) st)
  /\ (forall (recordings : list recording) (st : state),
        (forall r, r ∈ recordings -> uuid r ∈ COMPLETED_MEETING_IDS st) ->
        for_each recordings (process_recording w email) st = (Return tt, st))
  /\ (forall (recordings : list recording) (st : state),
        for_each recordings (process_recording w email)
          (for_each recordings (process_recording w email) st).2
        = for_each
            (List.filter
               (not_completed
                  (COMPLETED_MEETING_IDS
                     (for_each recordings (process_recording w email) st).2))
               recordings)
            (process_recording w email)
            (for_each recordings (process_recording w email) st).2).
Proof.
  split; [| split; [| split]].
  - intros r st. apply process_recording_completed.
  - intros recordings st done. apply for_each_not_completed.
  - induction recordings as [|r recordings IH]; intros st Hall; [reflexivity |].
    simpl. unfold bind.
    rewrite process_recording_completed by (apply Hall; left).
    apply IH. intros r' Hr'. apply Hall. right. exact Hr'.
  - intros recordings st. apply for_each_not_completed. reflexivity.
Qed.

Example second_run_is_idle :
  let w := world_of [standup; retro] (fun _ => reply_ok) in
  let st1 := (for_each [standup; retro] (process_recording w "val@bbooster.io") ready).2 in
  COMPLETED_MEETING_IDS st1 = {[ "R1=="%string; "R2=="%string ]}
  /\ for_each [standup; retro] (process_recording w "val@bbooster.io") st1
     = (Return tt, st1).
Proof. split; vm_compute; reflexivity. Qed.

Lemma completed_recordings_are_skipped_witness :
  uuid standup ∈ ({[ "R1=="%string ]} : gset string)
  /\ process_recording (world_of [standup] (fun _ => reply_ok)) "val@bbooster.io"
       standup
       (mkState (Some "tok") (Some "Bearer tok") {[ "R1=="%string ]}
          (Some ("R1==" +:+ String LF EmptyString)) ∅ [TokenRequest])
     = (Return tt,
        mkState (Some "tok") (Some "Bearer tok") {[ "R1=="%string ]}
          (Some ("R1==" +:+ String LF EmptyString)) ∅ [TokenRequest]).
Proof.
  assert (Hin : uuid standup ∈ ({[ "R1=="%string ]} : gset string))
    by (apply elem_of_singleton; reflexivity).
  split; [exact Hin |].
  exact (proj1 (completed_recordings_are_skipped
                  (world_of [standup] (fun _ => reply_ok)) "val@bbooster.io")
           standup
           (mkState (Some "tok") (Some "Bearer tok") {[ "R1=="%string ]}
              (Some ("R1==" +:+ String LF EmptyString)) ∅ [TokenRequest])
           Hin).
Defined.

(** ** The second loop and the log *)

(** C1, on the code.  Two runs on a new interpreter with an empty disk and
    no log.  In the first, the only recording has a file that the provider
    has not finished (category [incomplete]) and a video that arrives whole;
    in the second, the video of the only recording is short of its declared
    length, so that [download_recording] returns [False] for it both times,
    and the audio arrives whole.  In both runs the first loop leaves
    [all_files_downloaded] false, no deletion is asked for, and yet the second
    loop ends with [success] true: the identifier joins the set and the
    log. *)
Theorem incomplete_recording_is_logged :
  (let run := main (world_of [half_ready] (fun _ => reply_ok)) (initial_state None ∅) in
   run.1 = Return tt
   /\ trace run.2
      = [TokenRequest; UsersRequest; UsersPageRequest 1;
         RecordingsRequest "u1" 0 1;
         DownloadRequest "https://zoom.example/f1?access_token=tok";
         DownloadRequest "https://zoom.example/f1?access_token=tok"]
   /\ COMPLETED_MEETING_IDS run.2 = {[ "R3=="%string ]}
   /\ log_file run.2 = Some ("R3==" +:+ String LF EmptyString))
  /\ (let run := main (world_of [standup] video_short) (initial_state None ∅) in
      run.1 = Return tt
      /\ trace run.2
         = [TokenRequest; UsersRequest; UsersPageRequest 1;
            RecordingsRequest "u1" 0 1;
            DownloadRequest "https://zoom.example/f1?access_token=tok";
            DownloadRequest "https://zoom.example/f2?access_token=tok";
            DownloadRequest "https://zoom.example/f1?access_token=tok";
            DownloadRequest "https://zoom.example/f2?access_token=tok"]
      /\ COMPLETED_MEETING_IDS run.2 = {[ "R1=="%string ]}
      /\ log_file run.2 = Some ("R1==" +:+ String LF EmptyString)).
Proof. cbv zeta. repeat split; vm_compute; reflexivity. Qed.

(** When every file arrives whole, the recording is deleted from the cloud
    and then entered in the log. *)
Example whole_recordings_are_deleted_and_logged :
  let run := main (world_of [standup; retro] (fun _ => reply_ok)) (initial_state None ∅) in
  run.1 = Return tt
  /\ trace run.2
     = [TokenRequest; UsersRequest; UsersPageRequest 1;
        RecordingsRequest "u1" 0 1;
        DownloadRequest "https://zoom.example/f1?access_token=tok";
        DownloadRequest "https://zoom.example/f2?access_token=tok";
        DeleteRequest "R1==";
        DownloadRequest "https://zoom.example/f2?access_token=tok";
        DeleteRequest "R2=="]
  /\ COMPLETED_MEETING_IDS run.2 = {[ "R1=="%string; "R2=="%string ]}
  /\ log_file run.2
     = Some ("R1==" +:+ String LF ("R2==" +:+ String LF EmptyString)).
Proof. cbv zeta. repeat split; vm_compute; reflexivity. Qed.

(** ** When a deletion is asked for *)

Lemma get_downloads_loop_state (files : list recording_file) (st : state) :
  (get_downloads_loop files st).2 = st.
Proof.
  induction files as [|rf files IH]; [reflexivity |].
  simpl. unfold get_download, read_global, bind.
  destruct (ACCESS_TOKEN st); [| reflexivity]. simpl.
  destruct (get_downloads_loop files st) as [[ds|e] st'] eqn:Hrest;
    simpl in IH; subst st'; reflexivity.
Qed.

Lemma get_downloads_state (r : recording) (st : state) :
  (get_downloads r st).2 = st.
Proof.
  unfold get_downloads. destruct (recording_files r);
    [reflexivity | apply get_downloads_loop_state].
Qed.

Lemma get_downloads_loop_categories (files : list recording_file)
    (st : state) (ds : list download) :
  (get_downloads_loop files st).1 = Return ds ->
  Forall2 (fun rf d => file_type rf = ""%string ->
                       dl_recording_type d = "incomplete"%string) files ds.
Proof.
  revert ds. induction files as [|rf files IH]; intros ds.
  - simpl. intros H. injection H as <-. constructor.
  - simpl. unfold get_download, read_global, bind.
    destruct (ACCESS_TOKEN st) as [token|]; [| discriminate]. simpl.
    destruct (get_downloads_loop files st) as [[ds'|e] st'] eqn:Hrest;
      [| discriminate].
    simpl. intros H. injection H as <-. constructor.
    + simpl. intros ->. reflexivity.
    + apply IH. reflexivity.
Qed.

Lemma get_downloads_categories (r : recording) (st : state) (ds : list download) :
  (get_downloads r st).1 = Return ds ->
  Forall2 (fun rf d => file_type rf = ""%string ->
                       dl_recording_type d = "incomplete"%string)
    (recording_files r) ds.
Proof.
  unfold get_downloads. destruct (recording_files r) as [|rf files] eqn:Hfiles;
    [discriminate |].
  apply get_downloads_loop_categories.
Qed.

(** The extraction as the loop uses it: the state is untouched. *)
Lemma extraction_spec (r : recording) (st : state) :
  try_except (Some <$$> get_downloads r) (fun _ => ret None) st
  = (match (get_downloads r st).1 with
     | Return ds => Return (Some ds)
     | Raise e => if is_Exception e then Return None else Raise e
     end, st).
Proof.
  unfold try_except, map_result, bind.
  pose proof (get_downloads_state r st) as Hst.
  destruct (get_downloads r st) as [[ds|e] st']; simpl in Hst; subst st';
    [reflexivity |].
  simpl. destruct (is_Exception e); reflexivity.
Qed.

(** The first loop ends with [all_files_downloaded] true only when no file
    is of category [incomplete]. *)
Lemma download_all_true (w : world) (r : recording) (email : string)
    (ds : list download) (acc : bool) (st : state) :
  (download_all w r email ds acc st).1 = Return true ->
  acc = true
  /\ Forall (fun d => dl_recording_type d <> "incomplete"%string) ds.
Proof.
  revert acc st. induction ds as [|d ds IH]; intros acc st.
  - simpl. intros H. injection H as ->. split; [reflexivity | constructor].
  - simpl. destruct (String.eqb_spec (dl_recording_type d) "incomplete") as [Heq | Hne];
      simpl.
    + intros H. apply IH in H as [H _]. discriminate.
    + destruct (format_filename w r d) as [filename folder_name].
      unfold bind.
      destruct (download_recording w (dl_download_url d) email filename folder_name st)
        as [[ok|e] st']; [| discriminate].
      intros H. apply IH in H as [Hacc Hall].
      destruct ok; simpl in Hacc; [| discriminate].
      split; [exact Hacc | constructor; assumption].
Qed.

Lemma only_downloads_refl (st : state) : only_downloads st st.
Proof. exists []. rewrite app_nil_r. split; [reflexivity | constructor]. Qed.

Lemma only_downloads_trans (a b c : state) :
  only_downloads a b -> only_downloads b c -> only_downloads a c.
Proof.
  intros (e1 & H1 & F1) (e2 & H2 & F2). exists (e1 ++ e2).
  rewrite H2, H1, app_assoc. split; [reflexivity |].
  apply Forall_app; split; assumption.
Qed.

Lemma only_downloads_request (url : string) (st : state) :
  only_downloads st (set_trace (trace st ++ [DownloadRequest url]) st).
Proof.
  exists [DownloadRequest url]. split; [reflexivity |].
  constructor; [exact I | constructor].
Qed.

Lemma only_downloads_disk (d : gmap string (list Byte.byte)) (st : state) :
  only_downloads st (set_disk d st).
Proof. exists []. simpl. rewrite app_nil_r. split; [reflexivity | constructor]. Qed.

Lemma only_downloads_no_delete (st st' : state) (id : string) :
  only_downloads st st' ->
  DeleteRequest id ∈ trace st' -> DeleteRequest id ∈ trace st.
Proof.
  intros (evs & -> & Hall) Hin. apply elem_of_app in Hin as [Hin | Hin];
    [exact Hin |].
  rewrite Forall_forall in Hall. destruct (Hall _ Hin).
Qed.

Lemma download_all_only_downloads (w : world) (r : recording) (email : string)
    (ds : list download) (acc : bool) :
  respects only_downloads (download_all w r email ds acc).
Proof.
  apply respects_download_all;
    auto using only_downloads_refl, only_downloads_request, only_downloads_disk.
  exact only_downloads_trans.
Qed.

Lemma download_again_only_downloads (w : world) (r : recording) (email : string)
    (ds : list download) (acc : bool) :
  respects only_downloads (download_again w r email ds acc).
Proof.
  apply respects_download_again;
    auto using only_downloads_refl, only_downloads_request, only_downloads_disk.
  exact only_downloads_trans.
Qed.

Lemma delete_then_mark_trace (w : world) (id : string) (st : state) :
  let after :=
    (deleted <- delete_recording w id ;;
     if deleted then mark_complete id else ret tt) st in
  trace after.2 = trace st \/ trace after.2 = trace st ++ [DeleteRequest id].
Proof.
  unfold delete_recording, read_global, get_state, emit, answer, bind. simpl.
  destruct (AUTHORIZATION_HEADER st); [| left; reflexivity]. simpl.
  destruct (delete_status w (trace st) id) as [status|e]; [| right; reflexivity].
  simpl. destruct (status =? 204); right; reflexivity.
Qed.

Lemma retry_only_downloads (w : world) (email : string) (r : recording) :
  respects only_downloads
    (extracted <- try_except (Some <$$> get_downloads r) (fun _ => ret None) ;;
     match extracted with
     | None => ret tt
     | Some downloads =>
         success <- download_again w r email downloads false ;;
         if success then mark_complete (uuid r) else ret tt
     end).
Proof.
  assert (Hret : forall (A : Type) (a : A), respects only_downloads (ret a))
    by (intros A a st; apply only_downloads_refl).
  apply (respects_bind _ only_downloads_trans).
  - apply (respects_try_except _ only_downloads_trans); [| intros e; apply Hret].
    apply (respects_map_result _ only_downloads_refl only_downloads_trans).
    apply (respects_get_downloads _ only_downloads_refl only_downloads_trans).
  - intros [downloads|]; [| apply Hret].
    apply (respects_bind _ only_downloads_trans);
      [apply download_again_only_downloads |].
    intros [|]; [| apply Hret].
    intros st. exists []. simpl. rewrite app_nil_r.
    split; [reflexivity | constructor].
Qed.

(** The half of C1 that the code keeps.  Whenever the body of the loop over
    the recordings asks for a deletion, it is the deletion of the recording at
    hand, and none of its files is of category [incomplete] (none has an empty
    [file_type]): for a recording with such a file the delete endpoint is
    never called. *)
Lemma deletion_needs_whole_recording (w : world) (email : string)
    (r : recording) (st : state) (id : string) :
  DeleteRequest id ∈ trace (process_recording w email r st).2 ->
  DeleteRequest id ∈ trace st
  \/ (id = uuid r
      /\ Forall (fun rf => file_type rf <> ""%string) (recording_files r)).
Proof.
  unfold process_recording. unfold bind at 1, get_state.
  destruct (bool_decide _); [intros Hin; left; exact Hin |].
  unfold bind at 1. rewrite extraction_spec.
  destruct (get_downloads r st).1 as [ds|e] eqn:Hext.
  - unfold bind at 1.
    pose proof (download_all_only_downloads w r email ds true st) as Hfirst.
    pose proof (download_all_true w r email ds true st) as Htrue.
    destruct (download_all w r email ds true st) as [[[|]|e] st1];
      simpl in Hfirst, Htrue.
    + destruct (Htrue eq_refl) as [_ Hall].
      pose proof (delete_then_mark_trace w (uuid r) st1) as Htrace.
      cbv zeta in Htrace. intros Hin.
      destruct Htrace as [Htrace | Htrace]; rewrite Htrace in Hin.
      * left. exact (only_downloads_no_delete _ _ _ Hfirst Hin).
      * apply elem_of_app in Hin as [Hin | Hin].
        -- left. exact (only_downloads_no_delete _ _ _ Hfirst Hin).
        -- right. apply list_elem_of_singleton in Hin. injection Hin as ->.
           split; [reflexivity |].
           pose proof (get_downloads_categories r st ds Hext) as Hcat.
           clear -Hcat Hall. induction Hcat as [|rf d files ds Hrf Hrest IH];
             [constructor |].
           inversion Hall; subst. constructor; [| apply IH; assumption].
           intros Hempty. apply Hrf in Hempty. contradiction.
    + intros Hin. left.
      apply (only_downloads_no_delete st st1); [exact Hfirst |].
      exact (only_downloads_no_delete _ _ _ (retry_only_downloads w email r st1) Hin).
    + intros Hin. left. exact (only_downloads_no_delete _ _ _ Hfirst Hin).
  - intros Hin. left. destruct (is_Exception e); exact Hin.
Qed.

(** * Further properties *)

(** ** More on the windows *)








(** ** Listing the users and the recordings *)

Lemma set_trace_same (st : state) : set_trace (trace st) st = st.
Proof. destruct st. reflexivity. Qed.

Lemma set_trace_twice (t t' : list event) (st : state) :
  set_trace t (set_trace t' st) = set_trace t st.
Proof. reflexivity. Qed.

Lemma get_users_pages_spec (w : world) (page_users : nat -> list user)
    (pages : list nat) (st : state) (hdr : string) :
  AUTHORIZATION_HEADER st = Some hdr ->
  (forall p, p ∈ pages -> users_page w p = Return (page_users p)) ->
  get_users_pages w pages st
  = (Return (concat (page_users <$> pages)),
     set_trace (trace st ++ (UsersPageRequest <$> pages)) st).
Proof.
  revert st. induction pages as [|p pages IH]; intros st Hhdr Hpages.
  - simpl. rewrite app_nil_r, set_trace_same. reflexivity.
  - simpl. unfold bind at 1, read_global. rewrite Hhdr.
    unfold bind at 1, emit. unfold bind at 1, answer.
    rewrite (Hpages p) by left. unfold bind at 1.
    rewrite (IH (set_trace (trace st ++ [UsersPageRequest p]) st));
      [| exact Hhdr | intros q Hq; apply Hpages; right; exact Hq].
    unfold ret. simpl. rewrite set_trace_twice, <- app_assoc. reflexivity.
Qed.

(** X3.  [get_users] asks once for the list and then once for each page, from 1
    to [page_count] in order (so that [page_count + 1] requests are made), and
    returns the users of these pages in that order.  When the first answer is
    not [ok] the call exits with status 1 and no page has been asked for. *)
Theorem get_users_in_order (w : world) (page_users : nat -> list user)
    (st : state) (hdr : string) :
  AUTHORIZATION_HEADER st = Some hdr ->
  (forall n : nat,
     users_first w = Some n ->
     (forall p, (1 <= p <= n)%nat -> users_page w p = Return (page_users p)) ->
     get_users w st
     = (Return (concat (page_users <$> seq 1 n)),
        set_trace (trace st ++ UsersRequest :: (UsersPageRequest <$> seq 1 n)) st))
  /\ (users_first w = None ->
      get_users w st
      = (Raise (SystemExit 1), set_trace (trace st ++ [UsersRequest]) st)).
Proof.
  intros Hhdr. split.
  - intros n Hfirst Hpages. unfold get_users.
    unfold bind at 1, read_global. rewrite Hhdr.
    unfold bind at 1, emit. rewrite Hfirst.
    rewrite (get_users_pages_spec w page_users _ _ hdr); [| exact Hhdr |].
    + simpl. rewrite set_trace_twice, <- app_assoc. reflexivity.
    + intros p Hp. apply Hpages. apply elem_of_seq in Hp. lia.
  - intros Hfirst. unfold get_users.
    unfold bind at 1, read_global. rewrite Hhdr.
    unfold bind at 1, emit. rewrite Hfirst. reflexivity.
Qed.

Lemma get_users_in_order_witness :
  AUTHORIZATION_HEADER ready = Some "Bearer tok"%string
  /\ get_users (world_of [standup] (fun _ => reply_ok)) ready
     = (Return [guest; owner],
        set_trace [TokenRequest; UsersRequest; UsersPageRequest 1] ready).
Proof.
  split; [reflexivity |].
  assert (H := proj1 (get_users_in_order (world_of [standup] (fun _ => reply_ok))
                        (fun _ => [guest; owner]) ready "Bearer tok" eq_refl)
                 1%nat eq_refl (fun p _ => eq_refl)).
  exact H.
Defined.




Lemma list_windows_reversed (w : world) :
  RECORDING_END_DATE w <= RECORDING_START_DATE w -> list_windows w = [].
Proof.
  intros Hle. unfold list_windows. rewrite per_delta_past by exact Hle.
  reflexivity.
Qed.

(** X5.  When the configured end date is not after the start date, nothing is
    listed for any user, the owner included: the body of the loop over the
    users returns with the state as it was and no error is raised. *)
Theorem reversed_dates_list_nothing (w : world) (u : user) (st : state) :
  RECORDING_END_DATE w <= RECORDING_START_DATE w ->
  process_user w u st = (Return tt, st).
Proof.
  intros Hle. unfold process_user. destruct (negb _); [reflexivity |].
  unfold list_recordings. rewrite (list_windows_reversed w Hle). reflexivity.
Qed.

Lemma reversed_dates_list_nothing_witness :
  RECORDING_END_DATE
    (mkWorld 5 3 (TokenObject (Some "tok"%string)) (Some 1%nat)
       (fun _ => Return [owner]) (fun _ _ _ _ => Return [standup])
       (fun _ _ => reply_ok) (fun _ _ => Return 204)
       (fun r d => (dl_recording_id d, topic r)) (fun x => x) (fun x => x))
  <= 5
  /\ process_user
       (mkWorld 5 3 (TokenObject (Some "tok"%string)) (Some 1%nat)
          (fun _ => Return [owner]) (fun _ _ _ _ => Return [standup])
          (fun _ _ => reply_ok) (fun _ _ => Return 204)
          (fun r d => (dl_recording_id d, topic r)) (fun x => x) (fun x => x))
       owner ready
     = (Return tt, ready).
Proof.
  split; [simpl; lia |].
  apply (reversed_dates_list_nothing
           (mkWorld 5 3 (TokenObject (Some "tok"%string)) (Some 1%nat)
              (fun _ => Return [owner]) (fun _ _ _ _ => Return [standup])
              (fun _ _ => reply_ok) (fun _ _ => Return 204)
              (fun r d => (dl_recording_id d, topic r)) (fun x => x) (fun x => x))
           owner ready).
  simpl. lia.
Defined.

(** ** What a download touches *)




(** ** The files of a recording *)

Lemma get_download_spec (rf : recording_file) (st : state) (token : string) :
  ACCESS_TOKEN st = Some token ->
  get_download rf st = (Return (download_of token rf), st).
Proof.
  intros Htoken. unfold get_download, bind, read_global. rewrite Htoken.
  reflexivity.
Qed.

Lemma get_downloads_loop_spec (files : list recording_file) (st : state)
    (token : string) :
  ACCESS_TOKEN st = Some token ->
  get_downloads_loop files st = (Return (download_of token <$> files), st).
Proof.
  intros Htoken. induction files as [|rf files IH]; [reflexivity |].
  simpl. unfold bind at 1. rewrite (get_download_spec rf st token Htoken).
  unfold bind at 1. rewrite IH. reflexivity.
Qed.

(** X8.  [get_downloads] raises when the recording has no files, and otherwise
    (the token being loaded) returns one tuple for each file, in the order of
    the files: the address is the address of the file followed by
    [?access_token=] and the token, the category is [incomplete] for an empty
    [file_type], the [file_type] itself for [TIMELINE] and the
    [recording_type] of the file in every other case.  It makes no request and
    changes nothing. *)
Theorem get_downloads_spec (r : recording) (st : state) (token : string) :
  ACCESS_TOKEN st = Some token ->
  (recording_files r = [] -> get_downloads r st = (Raise PlainException, st))
  /\ (recording_files r <> [] ->
      get_downloads r st = (Return (download_of token <$> recording_files r), st))
  /\ (forall rf : recording_file,
        (file_type rf = ""%string -> category rf = "incomplete"%string)
        /\ (file_type rf = "TIMELINE"%string -> category rf = "TIMELINE"%string)
        /\ (file_type rf <> ""%string -> file_type rf <> "TIMELINE"%string ->
            category rf = file_recording_type rf)).
Proof.
  intros Htoken. split; [| split].
  - intros Hnone. unfold get_downloads. rewrite Hnone. reflexivity.
  - intros Hsome. unfold get_downloads.
    destruct (recording_files r) as [|rf files] eqn:Hfiles; [congruence |].
    apply (get_downloads_loop_spec (rf :: files) st token Htoken).
  - intros rf. unfold category. split; [| split].
    + intros ->. reflexivity.
    + intros ->. reflexivity.
    + intros Hne Hnt. apply String.eqb_neq in Hne, Hnt. rewrite Hne, Hnt.
      reflexivity.
Qed.

Lemma get_downloads_spec_witness :
  ACCESS_TOKEN ready = Some "tok"%string
  /\ recording_files half_ready <> []
  /\ get_downloads half_ready ready
     = (Return
          [mkDownload "" "" "https://zoom.example/f0?access_token=tok"
             "incomplete" "f0";
           mkDownload "MP4" "MP4" "https://zoom.example/f1?access_token=tok"
             "shared_screen_with_speaker_view" "f1"],
        ready).
Proof.
  assert (Hsome : recording_files half_ready <> []) by discriminate.
  split; [reflexivity |]. split; [exact Hsome |].
  exact (proj1 (proj2 (get_downloads_spec half_ready ready "tok" eq_refl)) Hsome).
Defined.

(** ** More on the log *)

Ltac union_tac :=
  apply set_eq; intros ?;
  rewrite ?elem_of_union, ?elem_of_singleton, ?elem_of_empty; tauto.

Lemma hydrate_line (id : string) :
  line_safe id -> hydrate (id +:+ String LF EmptyString) = {[ id ]}.
Proof.
  intros (Hl & Hr & Hnb). unfold hydrate.
  rewrite (universal_newlines_line _ Hnb), (file_lines_line _ Hnb).
  simpl. rewrite (strip_line _ Hl Hr). union_tac.
Qed.

Lemma hydrate_app (a b : string) :
  whole_lines a = true -> hydrate (a +:+ b) = hydrate a ∪ hydrate b.
Proof.
  intros Hwhole. destruct (whole_lines_inv a Hwhole) as [-> | (u & ->)].
  - rewrite app_empty. unfold hydrate at 2. simpl. union_tac.
  - unfold hydrate.
    rewrite app_assoc_string, app_String, app_empty, universal_newlines_app.
    destruct (universal_newlines_ends u false) as [[_ Hf] | (v & Hv)];
      [discriminate |].
    rewrite Hv, app_assoc_string, app_String, app_empty, file_lines_app.
    rewrite fmap_app, list_to_set_app_L. reflexivity.
Qed.

Lemma mark_complete_log (id : string) (st : state) :
  log_file (mark_complete id st).2
  = Some (default EmptyString (log_file st) +:+ id +:+ String LF EmptyString).
Proof. reflexivity. Qed.

Lemma for_each_mark_complete (ids : list string) (st : state) :
  Forall line_safe ids ->
  whole_lines (default EmptyString (log_file st)) = true ->
  (for_each ids mark_complete st).1 = Return tt
  /\ whole_lines (default EmptyString (log_file (for_each ids mark_complete st).2))
     = true
  /\ COMPLETED_MEETING_IDS (for_each ids mark_complete st).2
     = COMPLETED_MEETING_IDS st ∪ list_to_set ids
  /\ hydrate (default EmptyString (log_file (for_each ids mark_complete st).2))
     = hydrate (default EmptyString (log_file st)) ∪ list_to_set ids.
Proof.
  intros Hsafe. revert st. induction Hsafe as [|id ids Hid Hids IH];
    intros st Hwhole.
  - simpl. split; [reflexivity |]. split; [exact Hwhole |]. split; union_tac.
  - simpl. unfold bind.
    change (mark_complete id st) with (Return tt, (mark_complete id st).2).
    assert (Hwhole' :
              whole_lines (default EmptyString (log_file (mark_complete id st).2))
              = true).
    { rewrite mark_complete_log. simpl. rewrite <- app_assoc_string.
      apply whole_lines_snoc. }
    destruct (IH _ Hwhole') as (Hret & Hw & Hset & Hlog).
    split; [exact Hret |]. split; [exact Hw |]. split.
    + rewrite Hset. simpl. union_tac.
    + rewrite Hlog, mark_complete_log. simpl.
      rewrite (hydrate_app _ _ Hwhole), (hydrate_line _ Hid). union_tac.
Qed.

(** X9.  The log and the set stay in step.  Starting from a log made of whole
    lines, after any number of recordings have been marked complete (their
    identifiers having no white space at either end and no line break), the
    set that a new process reads from the log is the set read from the old
    log together with exactly these identifiers: no earlier entry is lost and
    none is invented; and if the set in memory agreed with the log before, it
    agrees with it after. *)
Theorem log_and_set_in_step (ids : list string) (st : state) :
  Forall line_safe ids ->
  whole_lines (default EmptyString (log_file st)) = true ->
  hydrate (default EmptyString (log_file (for_each ids mark_complete st).2))
  = hydrate (default EmptyString (log_file st)) ∪ list_to_set ids
  /\ (COMPLETED_MEETING_IDS st = hydrate (default EmptyString (log_file st)) ->
      COMPLETED_MEETING_IDS (for_each ids mark_complete st).2
      = hydrate (default EmptyString (log_file (for_each ids mark_complete st).2))).
Proof.
  intros Hsafe Hwhole.
  destruct (for_each_mark_complete ids st Hsafe Hwhole) as (_ & _ & Hset & Hlog).
  split; [exact Hlog |]. intros Hsync. rewrite Hset, Hlog, Hsync. reflexivity.
Qed.

Lemma log_and_set_in_step_witness :
  Forall line_safe ["R1=="%string; "R2=="%string]
  /\ whole_lines (default EmptyString (log_file ready)) = true
  /\ hydrate
       (default EmptyString
          (log_file (for_each ["R1=="%string; "R2=="%string] mark_complete ready).2))
     = hydrate (default EmptyString (log_file ready))
       ∪ list_to_set ["R1=="%string; "R2=="%string].
Proof.
  assert (Hsafe : Forall line_safe ["R1=="%string; "R2=="%string]).
  { repeat constructor. }
  split; [exact Hsafe |]. split; [reflexivity |].
  exact (proj1 (log_and_set_in_step ["R1=="%string; "R2=="%string] ready
                  Hsafe eq_refl)).
Defined.

Lemma universal_newlines_no_cr (pending : bool) (s : string) :
  no_cr (universal_newlines pending s) = true.
Proof.
  revert pending. induction s as [|c s IH]; intros pending; [reflexivity |].
  simpl. destruct (Ascii.eqb c CR) eqn:Hcr; [simpl; apply IH |].
  destruct (Ascii.eqb c LF) eqn:Hlf.
  - destruct pending; [apply IH | simpl; apply IH].
  - simpl. rewrite Hcr. simpl. apply IH.
Qed.

Lemma file_lines_shape (s : string) :
  no_cr s = true -> Forall (fun l => line_shape l = true) (file_lines s).
Proof.
  induction s as [|c s IH]; intros Hs; [constructor |].
  simpl in Hs. apply andb_prop in Hs as [Hc Hs]. specialize (IH Hs).
  simpl. destruct (Ascii.eqb c LF) eqn:Hlf.
  - constructor; [| exact IH]. simpl. rewrite Hc, Hlf. reflexivity.
  - destruct (file_lines s) as [|l ls].
    + constructor; [| constructor]. simpl. rewrite Hc, Hlf. reflexivity.
    + inversion IH as [|? ? Hl Hls]; subst.
      constructor; [| exact Hls]. simpl. rewrite Hc, Hlf, Hl. reflexivity.
Qed.

Lemma line_shape_lstrip (s : string) :
  line_shape s = true -> line_shape (lstrip s) = true.
Proof.
  induction s as [|c s IH]; intros Hs; [reflexivity |].
  simpl. destruct (isspace c); [| exact Hs].
  simpl in Hs. apply andb_prop in Hs as [_ Hs].
  destruct (Ascii.eqb c LF).
  - destruct s; [reflexivity | discriminate].
  - apply IH, Hs.
Qed.

Lemma line_shape_rstrip (s : string) :
  line_shape s = true -> no_line_break (rstrip s) = true.
Proof.
  induction s as [|c s IH]; intros Hs; [reflexivity |].
  simpl in Hs. apply andb_prop in Hs as [Hcr Hs].
  simpl. destruct (Ascii.eqb c LF) eqn:Hlf.
  - destruct s; [| discriminate]. simpl.
    apply Ascii.eqb_eq in Hlf. subst c. reflexivity.
  - specialize (IH Hs). destruct (rstrip s) as [|c' r].
    + destruct (isspace c); [reflexivity |]. simpl. rewrite Hlf, Hcr. reflexivity.
    + change (no_line_break (String c (String c' r)) = true).
      simpl. simpl in IH. rewrite Hlf, Hcr. exact IH.
Qed.

Lemma lstrip_idem (s : string) : lstrip (lstrip s) = lstrip s.
Proof.
  induction s as [|c s IH]; [reflexivity |].
  simpl. destruct (isspace c) eqn:Hc; [exact IH |]. simpl. rewrite Hc.
  reflexivity.
Qed.

Lemma rstrip_idem (s : string) : rstrip (rstrip s) = rstrip s.
Proof.
  induction s as [|c s IH]; [reflexivity |].
  simpl. destruct (rstrip s) as [|c' r] eqn:Hr.
  - destruct (isspace c) eqn:Hc; [reflexivity |]. simpl. rewrite Hc. reflexivity.
  - change (rstrip (String c (String c' r)) = String c (String c' r)).
    simpl. simpl in IH. rewrite IH. reflexivity.
Qed.

Lemma lstrip_rstrip_fixed (t : string) :
  lstrip t = t -> lstrip (rstrip t) = rstrip t.
Proof.
  destruct t as [|c t]; [reflexivity |]. intros Hfix.
  pose proof (lstrip_fixed c t Hfix) as Hc. simpl.
  destruct (rstrip t); rewrite ?Hc; simpl; rewrite Hc; reflexivity.
Qed.

(** X10.  Every identifier that [load_completed_meeting_ids] reads from a log,
    whatever the text of the log, has no white space at either end and no
    line break inside: the set it builds holds only identifiers that a line of
    the log can carry unchanged. *)
Theorem hydrate_members_line_safe (text x : string) :
  x ∈ hydrate text -> line_safe x.
Proof.
  unfold hydrate. intros Hin.
  apply elem_of_list_to_set, list_elem_of_fmap in Hin as (l & -> & Hl).
  pose proof (file_lines_shape _ (universal_newlines_no_cr false text)) as Hshape.
  rewrite Forall_forall in Hshape. specialize (Hshape l Hl).
  unfold line_safe, strip. split; [| split].
  - apply lstrip_rstrip_fixed, lstrip_idem.
  - apply rstrip_idem.
  - apply line_shape_rstrip, line_shape_lstrip, Hshape.
Qed.

Lemma hydrate_members_line_safe_witness :
  "a b"%string ∈ hydrate (String " " (String "a" (String " " (String "b"
                   (String CR (String LF (String LF EmptyString)))))))
  /\ line_safe "a b".
Proof.
  assert (Hin : "a b"%string ∈ hydrate (String " " (String "a" (String " "
                   (String "b" (String CR (String LF (String LF EmptyString)))))))).
  { replace (hydrate _) with ({[ "a b"%string; ""%string ]} : gset string)
      by (vm_compute; reflexivity).
    apply elem_of_union. left. apply elem_of_singleton. reflexivity. }
  split; [exact Hin |].
  exact (hydrate_members_line_safe _ _ Hin).
Defined.

(** ** Recordings that are not ready *)

Lemma downloads_only_refl (st : state) : downloads_only st st.
Proof. repeat split. apply only_downloads_refl. Qed.

Lemma downloads_only_trans (a b c : state) :
  downloads_only a b -> downloads_only b c -> downloads_only a c.
Proof.
  intros (H1 & H2 & H3 & H4 & H5) (K1 & K2 & K3 & K4 & K5).
  repeat split; try congruence. exact (only_downloads_trans _ _ _ H5 K5).
Qed.

Lemma downloads_only_request (url : string) (st : state) :
  downloads_only st (set_trace (trace st ++ [DownloadRequest url]) st).
Proof. repeat split. apply only_downloads_request. Qed.

Lemma downloads_only_disk (d : gmap string (list Byte.byte)) (st : state) :
  downloads_only st (set_disk d st).
Proof. repeat split. apply only_downloads_disk. Qed.

Lemma download_all_quiet (w : world) (r : recording) (email : string)
    (ds : list download) (acc : bool) :
  respects downloads_only (download_all w r email ds acc).
Proof.
  apply respects_download_all;
    auto using downloads_only_refl, downloads_only_request, downloads_only_disk.
  exact downloads_only_trans.
Qed.

Lemma download_again_quiet (w : world) (r : recording) (email : string)
    (ds : list download) (acc : bool) :
  respects downloads_only (download_again w r email ds acc).
Proof.
  apply respects_download_again;
    auto using downloads_only_refl, downloads_only_request, downloads_only_disk.
  exact downloads_only_trans.
Qed.

(** What [get_downloads] returns, when it returns. *)
Lemma get_downloads_returns (r : recording) (st : state) (ds : list download) :
  (get_downloads r st).1 = Return ds ->
  exists token : string,
    ACCESS_TOKEN st = Some token
    /\ recording_files r <> []
    /\ ds = download_of token <$> recording_files r.
Proof.
  unfold get_downloads. destruct (recording_files r) as [|rf files] eqn:Hfiles;
    [discriminate |].
  destruct (ACCESS_TOKEN st) as [token|] eqn:Htoken.
  - rewrite (get_downloads_loop_spec _ _ _ Htoken). intros H. injection H as <-.
    exists token. repeat split. discriminate.
  - simpl. unfold get_download, read_global, bind. rewrite Htoken. discriminate.
Qed.

Lemma download_all_incomplete (w : world) (r : recording) (email : string)
    (ds : list download) (acc : bool) (st : state) :
  Forall (fun d => dl_recording_type d = "incomplete"%string) ds ->
  download_all w r email ds acc st
  = (Return (match ds with [] => acc | _ :: _ => false end), st).
Proof.
  intros Hall. revert acc. induction Hall as [|d ds Hd Hds IH]; intros acc;
    [reflexivity |].
  simpl. rewrite Hd. simpl. rewrite IH. destruct ds; reflexivity.
Qed.

Lemma download_again_incomplete (w : world) (r : recording) (email : string)
    (ds : list download) (acc : bool) (st : state) :
  Forall (fun d => dl_recording_type d = "incomplete"%string) ds ->
  download_again w r email ds acc st
  = (Return (match ds with [] => acc | _ :: _ => false end), st).
Proof.
  intros Hall. revert acc. induction Hall as [|d ds Hd Hds IH]; intros acc;
    [reflexivity |].
  simpl. rewrite Hd. simpl. rewrite IH. destruct ds; reflexivity.
Qed.

Lemma get_downloads_raises (r : recording) (st : state) (e : exn) :
  (get_downloads r st).1 = Raise e -> is_Exception e = true.
Proof.
  unfold get_downloads. destruct (recording_files r) as [|rf files] eqn:Hfiles.
  - intros H. injection H as <-. reflexivity.
  - destruct (ACCESS_TOKEN st) as [token|] eqn:Htoken.
    + rewrite (get_downloads_loop_spec _ _ _ Htoken). discriminate.
    + simpl. unfold get_download, read_global, bind. rewrite Htoken.
      intros H. injection H as <-. reflexivity.
Qed.

(** X11.  A recording without files, or with none but files of category
    [incomplete], is left for a later run: the body of the loop returns with
    the state as it was, so that nothing is requested, written, deleted or
    logged for it. *)
Theorem unready_recording_is_left_alone (w : world) (email : string)
    (r : recording) (st : state) :
  Forall (fun rf => is_incomplete rf = true) (recording_files r) ->
  process_recording w email r st = (Return tt, st).
Proof.
  intros Hall. unfold process_recording. unfold bind at 1, get_state.
  destruct (bool_decide _); [reflexivity |].
  unfold bind at 1. rewrite extraction_spec.
  destruct (get_downloads r st).1 as [ds|e] eqn:Hext.
  - destruct (get_downloads_returns r st ds Hext) as (token & Htoken & Hsome & ->).
    assert (Hds : Forall (fun d => dl_recording_type d = "incomplete"%string)
                    (download_of token <$> recording_files r)).
    { apply Forall_fmap. eapply Forall_impl; [exact Hall |].
      intros rf Hrf. simpl. apply String.eqb_eq. exact Hrf. }
    unfold bind at 1. rewrite (download_all_incomplete _ _ _ _ _ _ Hds).
    destruct (recording_files r) as [|rf files] eqn:Hfiles; [congruence |].
    change (download_of token <$> rf :: files)
      with (download_of token rf :: (download_of token <$> files)) in *.
    cbv iota. rewrite <- Hfiles in *. unfold bind at 1.
    rewrite extraction_spec, Hext. rewrite Hfiles in *.
    change (download_of token <$> rf :: files)
      with (download_of token rf :: (download_of token <$> files)) in *.
    unfold bind at 1. rewrite (download_again_incomplete _ _ _ _ _ _ Hds).
    reflexivity.
  - rewrite (get_downloads_raises r st e Hext). reflexivity.
Qed.

Lemma unready_recording_is_left_alone_witness :
  Forall (fun rf => is_incomplete rf = true)
    (recording_files (mkRecording "R4==" "104" "Sync" "2025-01-13T10:00:00Z"
                        [pending_file; pending_file]))
  /\ process_recording (world_of [] (fun _ => reply_ok)) "val@bbooster.io"
       (mkRecording "R4==" "104" "Sync" "2025-01-13T10:00:00Z"
          [pending_file; pending_file]) ready
     = (Return tt, ready).
Proof.
  assert (Hall : Forall (fun rf => is_incomplete rf = true)
                   (recording_files
                      (mkRecording "R4==" "104" "Sync" "2025-01-13T10:00:00Z"
                         [pending_file; pending_file]))).
  { repeat constructor. }
  split; [exact Hall |].
  exact (unready_recording_is_left_alone (world_of [] (fun _ => reply_ok))
           "val@bbooster.io" _ ready Hall).
Defined.

Lemma download_again_last_incomplete (w : world) (r : recording) (email : string)
    (ds : list download) (d : download) (acc : bool) (st : state) :
  last ds = Some d -> dl_recording_type d = "incomplete"%string ->
  (download_again w r email ds acc st).1 <> Return true.
Proof.
  intros Hlast Hd. revert acc st.
  induction ds as [|d0 ds IH]; intros acc st; [discriminate |].
  destruct ds as [|d1 ds].
  - simpl in Hlast. injection Hlast as ->. simpl. rewrite Hd. simpl.
    discriminate.
  - specialize (IH Hlast).
    change (download_again w r email (d0 :: d1 :: ds) acc st)
      with ((if negb (String.eqb (dl_recording_type d0) "incomplete") then
               let '(filename, folder_name) := format_filename w r d0 in
               ok <- download_recording w (dl_download_url d0) email filename
                       folder_name ;;
               download_again w r email (d1 :: ds) (acc || ok)
             else download_again w r email (d1 :: ds) false) st).
    destruct (negb _); [| apply IH].
    destruct (format_filename w r d0) as [filename folder_name].
    unfold bind.
    destruct (download_recording w (dl_download_url d0) email filename folder_name st)
      as [[ok|e] st']; [apply IH | discriminate].
Qed.

(** X12.  A recording whose last file is of category [incomplete] is never deleted
    and never logged, whatever the answers of the provider: while the body of
    the loop runs for it, nothing happens but requests for downloads and writes
    to the disk; the set, the log and the globals are as before. *)
Theorem last_file_incomplete_is_not_logged (w : world) (email : string)
    (r : recording) (st : state) (rf : recording_file) :
  last (recording_files r) = Some rf -> is_incomplete rf = true ->
  downloads_only st (process_recording w email r st).2.
Proof.
  intros Hlast Hrf. unfold process_recording. unfold bind at 1, get_state.
  destruct (bool_decide _); [apply downloads_only_refl |].
  unfold bind at 1. rewrite extraction_spec.
  destruct (get_downloads r st).1 as [ds|e] eqn:Hext;
    [| destruct (is_Exception e); apply downloads_only_refl].
  destruct (get_downloads_returns r st ds Hext) as (token & Htoken & Hsome & ->).
  assert (Hlast' : last (download_of token <$> recording_files r)
                   = Some (download_of token rf)).
  { rewrite fmap_last, Hlast. reflexivity. }
  assert (Hcat : dl_recording_type (download_of token rf) = "incomplete"%string).
  { simpl. apply String.eqb_eq. exact Hrf. }
  unfold bind at 1.
  pose proof (download_all_quiet w r email
                (download_of token <$> recording_files r) true st) as Hfirst.
  pose proof (download_all_true w r email
                (download_of token <$> recording_files r) true st) as Htrue.
  destruct (download_all w r email (download_of token <$> recording_files r) true st)
    as [[[|]|e] st1]; simpl in Hfirst, Htrue.
  - exfalso. destruct (Htrue eq_refl) as [_ Hall].
    rewrite Forall_forall in Hall.
    apply (Hall (download_of token rf)); [| exact Hcat].
    apply last_Some in Hlast' as (l' & ->). apply elem_of_app. right. left.
  - unfold bind at 1. rewrite extraction_spec.
    assert (Hext1 : (get_downloads r st1).1
                    = Return (download_of token <$> recording_files r)).
    { destruct Hfirst as (Htok & _).
      unfold get_downloads.
      destruct (recording_files r) as [|rf0 files]; [congruence |].
      rewrite (get_downloads_loop_spec _ st1 token); [reflexivity | congruence]. }
    rewrite Hext1. unfold bind at 1.
    pose proof (download_again_quiet w r email
                  (download_of token <$> recording_files r) false st1) as Hsecond.
    pose proof (download_again_last_incomplete w r email _ _ false st1
                  Hlast' Hcat) as Hnot.
    destruct (download_again w r email (download_of token <$> recording_files r)
                false st1) as [[[|]|e] st2]; simpl in Hsecond, Hnot.
    + congruence.
    + exact (downloads_only_trans _ _ _ Hfirst Hsecond).
    + exact (downloads_only_trans _ _ _ Hfirst Hsecond).
  - exact Hfirst.
Qed.

Lemma last_file_incomplete_is_not_logged_witness :
  last (recording_files
          (mkRecording "R5==" "105" "Demo" "2025-01-14T10:00:00Z"
             [video_file; pending_file])) = Some pending_file
  /\ is_incomplete pending_file = true
  /\ downloads_only ready
       (process_recording (world_of [] (fun _ => reply_ok)) "val@bbooster.io"
          (mkRecording "R5==" "105" "Demo" "2025-01-14T10:00:00Z"
             [video_file; pending_file]) ready).2.
Proof.
  split; [reflexivity |]. split; [reflexivity |].
  exact (last_file_incomplete_is_not_logged (world_of [] (fun _ => reply_ok))
           "val@bbooster.io"
           (mkRecording "R5==" "105" "Demo" "2025-01-14T10:00:00Z"
              [video_file; pending_file])
           ready pending_file eq_refl eq_refl).
Defined.

(** ** When every download succeeds *)














(** ** What a whole run leaves untouched *)

Section RunFrame.

Variable R : state -> state -> Prop.
Hypothesis R_refl : forall st, R st st.
Hypothesis R_trans : forall a b c, R a b -> R b c -> R a c.
Hypothesis R_trace : forall t st, R st (set_trace t st).
Hypothesis R_disk : forall d st, R st (set_disk d st).

Lemma run_bind {A B} (c : M A) (k : A -> M B) :
  respects R c -> (forall a, respects R (k a)) -> respects R (bind c k).
Proof. apply respects_bind; assumption. Qed.

Lemma run_ret {A} (a : A) : respects R (ret a).
Proof. apply respects_ret; assumption. Qed.

Lemma run_raise {A} (e : exn) : respects R (@raise A e).
Proof. apply respects_raise; assumption. Qed.

Lemma run_emit (ev : event) : respects R (emit ev).
Proof. intros st. apply R_trace. Qed.

Lemma run_answer {A} (o : outcome A) : respects R (answer o).
Proof. intros st. apply R_refl. Qed.

Lemma run_read_global (name : string) (field : state -> option string) :
  respects R (read_global name field).
Proof. apply respects_read_global; assumption. Qed.

Lemma run_get_state : respects R get_state.
Proof. apply respects_get_state; assumption. Qed.

#[local] Hint Resolve run_ret run_raise run_emit run_answer run_read_global
  run_get_state : frame.

Lemma run_delete_recording (w : world) (id : string) :
  respects R (delete_recording w id).
Proof.
  unfold delete_recording.
  repeat (apply run_bind; [auto with frame |]; intros ?). auto with frame.
Qed.

Lemma run_get_users (w : world) : respects R (get_users w).
Proof.
  assert (Hpages : forall pages, respects R (get_users_pages w pages)).
  { induction pages as [|p pages IH]; simpl; [auto with frame |].
    repeat (apply run_bind; [auto with frame |]; intros ?). auto with frame. }
  unfold get_users.
  repeat (apply run_bind; [auto with frame |]; intros ?).
  destruct (users_first w); [apply Hpages | auto with frame].
Qed.

Lemma run_list_recordings (w : world) (email : string) :
  respects R (list_recordings w email).
Proof.
  unfold list_recordings.
  induction (list_windows w) as [|[a b] windows IH]; simpl; [auto with frame |].
  repeat (apply run_bind; [auto with frame |]; intros ?). auto with frame.
Qed.

Lemma run_process_recording (w : world) (email : string) (r : recording) :
  respects R (mark_complete (uuid r)) ->
  respects R (process_recording w email r).
Proof.
  intros Hmark.
  assert (Hdl : forall url st,
            R st (set_trace (trace st ++ [DownloadRequest url]) st))
    by (intros; apply R_trace).
  assert (Hext : respects R
            (try_except (Some <$$> get_downloads r) (fun _ => ret None))).
  { apply respects_try_except; [assumption | | auto with frame].
    apply respects_map_result; [assumption | assumption |].
    apply respects_get_downloads; assumption. }
  unfold process_recording.
  apply run_bind; [auto with frame |]. intros st0.
  destruct (bool_decide _); [auto with frame |].
  apply run_bind; [exact Hext |].
  intros [downloads|]; [| auto with frame].
  apply run_bind; [apply respects_download_all; assumption |]. intros [|].
  - apply run_bind; [apply run_delete_recording |].
    intros [|]; [exact Hmark | auto with frame].
  - apply run_bind; [exact Hext |].
    intros [downloads'|]; [| auto with frame].
    apply run_bind; [apply respects_download_again; assumption |].
    intros [|]; [exact Hmark | auto with frame].
Qed.

Lemma run_main (w : world) :
  respects R (load_access_token w) ->
  respects R load_completed_meeting_ids ->
  (forall id, respects R (mark_complete id)) ->
  respects R (main w).
Proof.
  intros Htoken Hload Hmark. unfold main.
  apply run_bind; [exact Htoken |]. intros _.
  apply run_bind; [exact Hload |]. intros _.
  apply run_bind; [apply run_get_users |]. intros users.
  apply respects_for_each; [assumption | assumption |].
  intros u. unfold process_user. destruct (negb _); [auto with frame |].
  apply run_bind; [apply run_list_recordings |]. intros recordings.
  apply respects_for_each; [assumption | assumption |].
  intros r. apply run_process_recording, Hmark.
Qed.

End RunFrame.

Lemma append_only_refl (st : state) : append_only st st.
Proof.
  split; [reflexivity |]. split; [auto |]. exists EmptyString.
  induction (default EmptyString (log_file st)) as [|c s IH]; [reflexivity |].
  rewrite app_String, <- IH. reflexivity.
Qed.

Lemma append_only_same (st st' : state) :
  COMPLETED_MEETING_IDS st' = COMPLETED_MEETING_IDS st ->
  log_file st' = log_file st -> append_only st st'.
Proof.
  intros Hset Hlog. destruct (append_only_refl st) as (H1 & H2 & H3).
  unfold append_only. rewrite Hset, Hlog. auto.
Qed.

Lemma append_only_trans (a b c : state) :
  append_only a b -> append_only b c -> append_only a c.
Proof.
  intros (H1 & H2 & (s1 & H3)) (K1 & K2 & (s2 & K3)).
  split; [etrans; eassumption |]. split; [auto |].
  exists (s1 +:+ s2). rewrite K3, H3, app_assoc_string. reflexivity.
Qed.

(** X15.  The log is only ever appended to.  Whatever the provider answers and
    however the run ends, after [main] the set of completed recordings holds
    everything it held before, a log that existed still exists, and the text
    of the log before the run is the beginning of the text after it. *)
Theorem main_only_appends (w : world) (st : state) :
  append_only st (main w st).2.
Proof.
  apply run_main.
  - exact append_only_refl.
  - exact append_only_trans.
  - intros t st0. apply append_only_same; reflexivity.
  - intros d st0. apply append_only_same; reflexivity.
  - intros st0. unfold load_access_token, bind, emit.
    destruct (oauth_token w) as [| | |[token|]];
      apply append_only_same; reflexivity.
  - intros st0. unfold load_completed_meeting_ids.
    destruct (log_file st0) as [text|] eqn:Hlog; [| apply append_only_refl].
    split; [apply union_subseteq_l |]. simpl.
    destruct (append_only_refl st0) as (_ & _ & Hsuffix).
    rewrite Hlog in *. split; [auto | exact Hsuffix].
  - intros id st0. split; [apply union_subseteq_r |].
    split; [intros _; eexists; reflexivity |].
    exists (id +:+ String LF EmptyString). reflexivity.
Qed.

(** ** What the loop over the recordings can log and delete *)

Lemma process_recording_gains (w : world) (email : string) (r : recording)
    (st : state) :
  gains_within {[ uuid r ]} st (process_recording w email r st).2.
Proof.
  apply (run_process_recording (gains_within {[ uuid r ]})); unfold gains_within.
  - intros st0. apply union_subseteq_l.
  - intros a b c Hab Hbc x Hx. apply Hbc in Hx.
    apply elem_of_union in Hx as [Hx | Hx].
    + apply Hab, Hx.
    + apply elem_of_union. right. exact Hx.
  - intros t st0. apply union_subseteq_l.
  - intros d st0. apply union_subseteq_l.
  - intros st0 x Hx. simpl in Hx. apply elem_of_union in Hx as [Hx | Hx];
      apply elem_of_union; [right | left]; exact Hx.
Qed.

(** X16.  The loop over the recordings adds to the set of completed recordings
    nothing but [uuid]s of the recordings it is given, whatever the provider
    answers and however the loop ends. *)
Theorem loop_logs_listed_only (w : world) (email : string)
    (recordings : list recording) (st : state) :
  gains_within (list_to_set (uuid <$> recordings)) st
    (for_each recordings (process_recording w email) st).2.
Proof.
  revert st. induction recordings as [|r recordings IH]; intros st.
  - simpl. unfold gains_within. apply union_subseteq_l.
  - simpl. unfold bind.
    pose proof (process_recording_gains w email r st) as Hr.
    destruct (process_recording w email r st) as [[[]|e] st1]; simpl in Hr.
    + specialize (IH st1). unfold gains_within in *. intros x Hx.
      apply IH in Hx. apply elem_of_union in Hx as [Hx | Hx].
      * apply Hr in Hx. apply elem_of_union in Hx as [Hx | Hx];
          apply elem_of_union; [left; exact Hx | right].
        apply elem_of_union. left. exact Hx.
      * apply elem_of_union. right. apply elem_of_union. right. exact Hx.
    + unfold gains_within in *. intros x Hx. apply Hr in Hx.
      apply elem_of_union in Hx as [Hx | Hx];
        apply elem_of_union; [left; exact Hx | right].
      apply elem_of_union. left. exact Hx.
Qed.

(** X17.  The loop over the recordings requests no deletion but that of a
    recording it is given, and only of one that has no file with an empty
    [file_type]: every deletion in the trace after the loop was there before,
    or is the deletion of the [uuid] of such a recording. *)
Theorem loop_deletes_listed_whole_only (w : world) (email : string)
    (recordings : list recording) (st : state) (id : string) :
  DeleteRequest id ∈ trace (for_each recordings (process_recording w email) st).2 ->
  DeleteRequest id ∈ trace st
  \/ exists r : recording,
       r ∈ recordings /\ id = uuid r
       /\ Forall (fun rf => file_type rf <> ""%string) (recording_files r).
Proof.
  revert st. induction recordings as [|r recordings IH]; intros st Hin.
  - left. exact Hin.
  - simpl in Hin. unfold bind in Hin.
    pose proof (deletion_needs_whole_recording w email r st id) as Hr.
    destruct (process_recording w email r st) as [[[]|e] st1]; simpl in Hr.
    + destruct (IH st1 Hin) as [Hold | (r' & Hr' & Hid & Hall)].
      * destruct (Hr Hold) as [Hst | [Hid Hall]]; [left; exact Hst |].
        right. exists r. split; [left | split; assumption].
      * right. exists r'. split; [right; exact Hr' | split; assumption].
    + destruct (Hr Hin) as [Hst | [Hid Hall]]; [left; exact Hst |].
      right. exists r. split; [left | split; assumption].
Qed.

Lemma loop_deletes_listed_whole_only_witness :
  DeleteRequest "R1=="
    ∈ trace (for_each [standup]
               (process_recording (world_of [standup] (fun _ => reply_ok))
                  "val@bbooster.io") ready).2
  /\ (DeleteRequest "R1==" ∈ trace ready
      \/ exists r : recording,
           r ∈ [standup] /\ "R1=="%string = uuid r
           /\ Forall (fun rf => file_type rf <> ""%string) (recording_files r)).
Proof.
  assert (Hin : DeleteRequest "R1=="
                  ∈ trace (for_each [standup]
                             (process_recording
                                (world_of [standup] (fun _ => reply_ok))
                                "val@bbooster.io") ready).2).
  { replace (trace _) with
      [TokenRequest;
       DownloadRequest "https://zoom.example/f1?access_token=tok";
       DownloadRequest "https://zoom.example/f2?access_token=tok";
       DeleteRequest "R1=="] by (vm_compute; reflexivity).
    do 3 right. left. }
  split; [exact Hin |].
  exact (loop_deletes_listed_whole_only (world_of [standup] (fun _ => reply_ok))
           "val@bbooster.io" [standup] ready "R1==" Hin).
Defined.

(** X18.  The requests made for one recording are requests for downloads, followed
    by at most one deletion: a deletion, when there is one, is for the [uuid]
    of the recording and is the last request made for it. *)
Theorem deletion_comes_last (w : world) (email : string) (r : recording)
    (st : state) :
  exists (evs tail : list event),
    trace (process_recording w email r st).2 = trace st ++ evs ++ tail
    /\ Forall is_download evs
    /\ (tail = [] \/ tail = [DeleteRequest (uuid r)]).
Proof.
  assert (Hnone : exists evs tail : list event,
            trace st = trace st ++ evs ++ tail /\ Forall is_download evs
            /\ (tail = [] \/ tail = [DeleteRequest (uuid r)])).
  { exists [], []. rewrite app_nil_r. repeat split; [constructor | left; reflexivity]. }
  unfold process_recording. unfold bind at 1, get_state.
  destruct (bool_decide _); [exact Hnone |].
  unfold bind at 1. rewrite extraction_spec.
  destruct (get_downloads r st).1 as [ds|e] eqn:Hext;
    [| destruct (is_Exception e); exact Hnone].
  unfold bind at 1.
  pose proof (download_all_only_downloads w r email ds true st) as Hfirst.
  destruct (download_all w r email ds true st) as [[[|]|e] st1];
    simpl in Hfirst; destruct Hfirst as (evs1 & Htr1 & Hall1).
  - pose proof (delete_then_mark_trace w (uuid r) st1) as Htrace.
    cbv zeta in Htrace. destruct Htrace as [Htrace | Htrace]; rewrite Htrace, Htr1.
    + exists evs1, []. rewrite app_nil_r. repeat split; [exact Hall1 | left; reflexivity].
    + exists evs1, [DeleteRequest (uuid r)]. rewrite app_assoc.
      repeat split; [exact Hall1 | right; reflexivity].
  - destruct (retry_only_downloads w email r st1) as (evs2 & Htr2 & Hall2).
    rewrite Htr2, Htr1. exists (evs1 ++ evs2), [].
    rewrite app_nil_r, app_assoc. repeat split; [| left; reflexivity].
    apply Forall_app. split; assumption.
  - exists evs1, []. rewrite app_nil_r. simpl.
    repeat split; [exact Htr1 | exact Hall1 | left; reflexivity].
Qed.

(** ** A run in which the owner is not listed *)

Lemma get_users_returns (w : world) (page_users : nat -> list user)
    (st : state) (hdr : string) (n : nat) :
  AUTHORIZATION_HEADER st = Some hdr ->
  users_first w = Some n ->
  (forall p, (1 <= p <= n)%nat -> users_page w p = Return (page_users p)) ->
  get_users w st
  = (Return (concat (page_users <$> seq 1 n)),
     set_trace (trace st ++ UsersRequest :: (UsersPageRequest <$> seq 1 n)) st).
Proof.
  intros Hhdr Hfirst Hpages. unfold get_users.
  unfold bind at 1, read_global. rewrite Hhdr.
  unfold bind at 1, emit. rewrite Hfirst.
  rewrite (get_users_pages_spec w page_users _ _ hdr); [| exact Hhdr |].
  - simpl. rewrite set_trace_twice, <- app_assoc. reflexivity.
  - intros p Hp. apply Hpages. apply elem_of_seq in Hp. lia.
Qed.

Lemma for_each_no_owner (w : world) (users : list user) (st : state) :
  Forall (fun u => is_owner u = false) users ->
  for_each users (process_user w) st = (Return tt, st).
Proof.
  intros Hall. induction Hall as [|u users Hu Hall IH]; [reflexivity |].
  simpl. unfold bind. rewrite (process_user_other w u st Hu). exact IH.
Qed.

(** X19.  When the token is delivered and every page of users arrives, but no
    listed user has the address ['val@bbooster.io'], [main] returns normally
    after the request for the token and the requests for the users: nothing is
    listed, downloaded or deleted, and the disk and the log are as they were
    found. *)
Theorem run_without_owner (w : world) (log : option string)
    (files : gmap string (list Byte.byte)) (token : string) (n : nat)
    (page_users : nat -> list user) :
  oauth_token w = TokenObject (Some token) ->
  users_first w = Some n ->
  (forall p, (1 <= p <= n)%nat -> users_page w p = Return (page_users p)) ->
  (forall p u, (1 <= p <= n)%nat -> u ∈ page_users p ->
               email u <> "val@bbooster.io"%string) ->
  (main w (initial_state log files)).1 = Return tt
  /\ trace (main w (initial_state log files)).2
     = TokenRequest :: UsersRequest :: (UsersPageRequest <$> seq 1 n)
  /\ disk (main w (initial_state log files)).2 = files
  /\ log_file (main w (initial_state log files)).2 = log.
Proof.
  intros Htoken Hfirst Hpages Hnone.
  assert (Hall : Forall (fun u => is_owner u = false)
                   (concat (page_users <$> seq 1 n))).
  { apply Forall_forall. intros u Hu.
    apply list_elem_of_In, in_concat in Hu as (us & Hus & Hu).
    apply list_elem_of_In in Hus, Hu.
    apply list_elem_of_fmap in Hus as (p & -> & Hp). apply elem_of_seq in Hp.
    unfold is_owner. apply String.eqb_neq. apply (Hnone p); [lia | exact Hu]. }
  assert (Heq : forall st0 : state,
            AUTHORIZATION_HEADER st0 = Some ("Bearer " +:+ token) ->
            (users <- get_users w ;; for_each users (process_user w)) st0
            = (Return tt,
               set_trace
                 (trace st0 ++ UsersRequest :: (UsersPageRequest <$> seq 1 n)) st0)).
  { intros st0 Hhdr. unfold bind.
    rewrite (get_users_returns w page_users st0 _ n Hhdr Hfirst Hpages).
    apply for_each_no_owner, Hall. }
  assert (Hmain : exists done : gset string,
            main w (initial_state log files)
            = (Return tt,
               mkState (Some token) (Some ("Bearer " +:+ token)) done log files
                 (TokenRequest :: UsersRequest :: (UsersPageRequest <$> seq 1 n)))).
  { unfold main. unfold bind at 1. unfold load_access_token, bind at 1, emit.
    rewrite Htoken. unfold bind at 1, load_completed_meeting_ids. simpl.
    destruct log as [text|]; rewrite Heq by reflexivity;
      eexists; reflexivity. }
  destruct Hmain as (done & ->). repeat split.
Qed.

Lemma run_without_owner_witness :
  oauth_token (example_world (TokenObject (Some "tok"%string)) [guest] [standup]
                 (fun _ => reply_ok) 204)
  = TokenObject (Some "tok"%string)
  /\ trace (main (example_world (TokenObject (Some "tok"%string)) [guest]
                   [standup] (fun _ => reply_ok) 204) (initial_state None ∅)).2
     = [TokenRequest; UsersRequest; UsersPageRequest 1].
Proof.
  split; [reflexivity |].
  refine (proj1 (proj2 (run_without_owner
                          (example_world (TokenObject (Some "tok"%string)) [guest]
                             [standup] (fun _ => reply_ok) 204)
                          None ∅ "tok" 1 (fun _ => [guest])
                          eq_refl eq_refl (fun _ _ => eq_refl) _))).
  intros p u _ Hu. apply list_elem_of_singleton in Hu. subst u. discriminate.
Defined.

(** ** The topic in the names of files and folders *)

Lemma sub_invalid_chars_ok (topic : string) :
  chars_ok (sub_invalid_chars topic) = true.
Proof.
  induction topic as [|c topic IH]; [reflexivity |].
  simpl. destruct (invalid_char c) eqn:Hc; [exact IH |].
  simpl. rewrite Hc. exact IH.
Qed.

Lemma sub_invalid_chars_fixed (topic : string) :
  chars_ok topic = true -> sub_invalid_chars topic = topic.
Proof.
  induction topic as [|c topic IH]; [reflexivity |].
  simpl. intros H. apply andb_prop in H as [Hc Htopic].
  destruct (invalid_char c); [discriminate |]. rewrite (IH Htopic). reflexivity.
Qed.

(** X20.  The substitution that [format_filename] applies to the topic leaves none
    of the characters of its class (the characters [<], [>], [:], the double
    quote, [/], the backslash, the bar, [?], [*] and the control characters),
    makes the text no longer, changes nothing in a topic that has none of
    them, and so changes nothing when applied twice. *)
Theorem topic_has_no_invalid_chars (topic : string) :
  chars_ok (sub_invalid_chars topic) = true
  /\ (String.length (sub_invalid_chars topic) <= String.length topic)%nat
  /\ (chars_ok topic = true -> sub_invalid_chars topic = topic)
  /\ sub_invalid_chars (sub_invalid_chars topic) = sub_invalid_chars topic.
Proof.
  split; [apply sub_invalid_chars_ok |]. split; [| split].
  - induction topic as [|c topic IH]; simpl; [lia |].
    destruct (invalid_char c); simpl; lia.
  - apply sub_invalid_chars_fixed.
  - apply sub_invalid_chars_fixed, sub_invalid_chars_ok.
Qed.

Example topic_sample :
  sub_invalid_chars "Q3: plan/review *final*?" = "Q3 planreview final"%string.
Proof. reflexivity. Qed.

(** ** Failed downloads that raise nothing *)






